(** * Schematics command, job registry and task registration of the CLI

    A shallow embedding of the parts of the repository that resolve job
    handlers ([NodeModuleJobRegistry]), drive a schematic run
    ([SchematicCommand]), register the post-commit tasks of [ng-new] and
    validate the options of the web-worker schematic, together with the
    staged file tree those rules work on. *)

From Stdlib Require Import ZArith Ascii String.
From stdpp Require Import base option list strings pretty gmap.

Local Open Scope string_scope.

(** ** JavaScript values, errors and completions *)

Module Js.

(** The classes of thrown values the modelled code tells apart. *)
Inductive ErrorClass :=
| PlainError
| TypeError
| SchematicsException
| UnknownCollectionError
| UnsuccessfulWorkflowExecution
| PathDoesNotExistError
| PathAlreadyExistsError.

Record JsError := mkError {
  err_class : ErrorClass;
  err_code : option string;
  err_message : string;
  err_stack : string;
}.

#[global] Instance ErrorClass_eq_dec : EqDecision ErrorClass.
Proof. solve_decision. Defined.

(** A call either returns a value or throws. *)
Inductive Outcome (A : Type) :=
| Returned (a : A)
| Threw (e : JsError).
Arguments Returned {A} a.
Arguments Threw {A} e.

#[global] Instance Outcome_ret : MRet Outcome := fun A a => Returned a.

#[global] Instance Outcome_bind : MBind Outcome := fun A B k m =>
  match m with
  | Returned a => k a
  | Threw e => Threw e
  end.

#[local] Unset Elimination Schemes.

(** Values as [require] hands them out.  The property table of an object
    or function lists what a property read answers for each key. *)
Inductive JsValue :=
| JUndefined
| JNull
| JBool (b : bool)
| JNum (n : Z)
| JNaN
| JStr (s : string)
| JArr (items : list JsValue)
| JObj (props : list (string * JsValue))
| JFun (fid : nat) (props : list (string * JsValue)).

#[local] Set Elimination Schemes.

(** ToBoolean. *)
Definition truthy (v : JsValue) : bool :=
  match v with
  | JUndefined | JNull | JNaN => false
  | JBool b => b
  | JNum n => negb (n =? 0)%Z
  | JStr s => negb (String.eqb s "")
  | JArr _ | JObj _ | JFun _ _ => true
  end.

(** [a || b] *)
Definition or_else (a b : JsValue) : JsValue := if truthy a then a else b.

Fixpoint assoc (key : string) (props : list (string * JsValue)) : JsValue :=
  match props with
  | [] => JUndefined
  | (k, v) :: rest => if String.eqb k key then v else assoc key rest
  end.

Definition not_an_object (what : string) : JsError :=
  mkError TypeError None ("Cannot read properties of " ++ what) "".

(** [v[key]]: a read on [undefined] or [null] throws; objects and
    functions answer from their property table; the inherited and indexed
    properties of the other primitives and of arrays are not modelled, a
    read on them answers [undefined]. *)
Definition get_prop (v : JsValue) (key : string) : Outcome JsValue :=
  match v with
  | JUndefined => Threw (not_an_object "undefined")
  | JNull => Threw (not_an_object "null")
  | JObj props | JFun _ props => Returned (assoc key props)
  | _ => Returned JUndefined
  end.

Definition is_function (v : JsValue) : bool :=
  match v with JFun _ _ => true | _ => false end.

(** [Array.prototype.find] *)
Fixpoint array_find (p : JsValue -> bool) (xs : list JsValue) : JsValue :=
  match xs with
  | [] => JUndefined
  | x :: rest => if p x then x else array_find p rest
  end.

(** The pieces of [s] between occurrences of [sep]; never empty. *)
Fixpoint split_on (sep : ascii) (s : string) : list string :=
  match s with
  | EmptyString => [EmptyString]
  | String a rest =>
      if Ascii.eqb a sep then EmptyString :: split_on sep rest
      else match split_on sep rest with
           | [] => [String a EmptyString]
           | piece :: pieces => String a piece :: pieces
           end
  end.

(** [s.split(sep, limit)] *)
Definition split_limit (sep : ascii) (limit : nat) (s : string) : list string :=
  take limit (split_on sep s).

Definition newline : string := String (ascii_of_nat 10) "".

(** [s] between double quotes. *)
Definition quoted (s : string) : string :=
  String (ascii_of_nat 34) s ++ String (ascii_of_nat 34) "".

(** rxjs [of(x)]: the values an observable emits before it completes. *)
Definition Observable (A : Type) := list A.
Definition rx_of {A} (x : A) : Observable A := [x].

Lemma bind_returned {A B} (a : A) (k : A -> Outcome B) :
  (x ← Returned a; k x) = k a.
Proof. reflexivity. Qed.

End Js.

Import Js.

(** ** NodeModuleJobRegistry *)

Module JobRegistry.

(** Node as the registry uses it: [require.resolve], [require], and what
    a call of a function value answers ([invoke f this arguments]). *)
Record Loader := {
  require_resolve : string -> Outcome string;
  require : string -> Outcome JsValue;
  invoke : JsValue -> JsValue -> list JsValue -> Outcome JsValue;
}.

Record JobDescription := {
  argument : JsValue;
  input : JsValue;
  output : JsValue;
  channels : JsValue;
}.

(** [Object.assign(handler.bind(undefined), { jobDescription })]: the
    value that [bind] answered, with the export it was called on and the
    description assigned to it. *)
Record JobHandler := {
  target : JsValue;
  bound : JsValue;
  jobDescription : JobDescription;
}.

Definition MODULE_NOT_FOUND : string := "MODULE_NOT_FOUND".

Definition is_module_not_found (e : JsError) : bool :=
  match err_code e with
  | Some c => String.eqb c MODULE_NOT_FOUND
  | None => false
  end.

Definition not_callable : JsError :=
  mkError TypeError None "handler.bind is not a function" "".

Fixpoint has_key (key : string) (props : list (string * JsValue)) : bool :=
  match props with
  | [] => false
  | (k, _) :: rest => String.eqb k key || has_key key rest
  end.

(** What a read of [handler.bind] answers: the [bind] every function
    inherits, or the value the handler's own table holds. *)
Inductive Method :=
| FunctionPrototypeBind
| Own (v : JsValue).

Definition bind_method (handler : JsValue) : Method :=
  match handler with
  | JFun _ props =>
      if has_key "bind" props then Own (assoc "bind" props)
      else FunctionPrototypeBind
  | JObj props => Own (assoc "bind" props)
  | _ => Own JUndefined
  end.

Definition not_coercible : JsError :=
  mkError TypeError None "Cannot convert undefined or null to object" "".

(** [Object.assign(target, ...)] refuses [undefined] and [null]. *)
Definition assign_target (v : JsValue) : Outcome JsValue :=
  match v with
  | JUndefined | JNull => Threw not_coercible
  | _ => Returned v
  end.

(** The four schema slots of a job description. *)
Inductive SchemaField := FArgument | FInput | FOutput | FChannels.

Definition field_key (f : SchemaField) : string :=
  match f with
  | FArgument => "argument"
  | FInput => "input"
  | FOutput => "output"
  | FChannels => "channels"
  end.

Definition attached (f : SchemaField) (d : JobDescription) : JsValue :=
  match f with
  | FArgument => argument d
  | FInput => input d
  | FOutput => output d
  | FChannels => channels d
  end.

Fixpoint no_hash (s : string) : bool :=
  match s with
  | EmptyString => true
  | String a rest => negb (Ascii.eqb a "#") && no_hash rest
  end.

Section Registry.

Variable node : Loader.
(** [schema.isJsonSchema] of the core package. *)
Variable isJsonSchema : JsValue -> bool.

Definition _resolve (name : string) : Outcome (option string) :=
  match require_resolve node name with
  | Returned path => Returned (Some path)
  | Threw e => if is_module_not_found e then Returned None else Threw e
  end.

Definition _getValue (fields : list JsValue) : JsValue :=
  or_else (array_find isJsonSchema fields) (JBool true).

Definition moduleName (name : string) : string :=
  match split_limit "#" 2 name with
  | m :: _ => m
  | [] => ""
  end.

Definition exportName (name : string) : option string :=
  match split_limit "#" 2 name with
  | _ :: e :: _ => Some e
  | _ => None
  end.

(** [exportName || 'default'] *)
Definition export_key (name : string) : string :=
  match exportName name with
  | Some e => if String.eqb e "" then "default" else e
  | None => "default"
  end.

(** [handler.bind(undefined)]: the inherited [bind] answers the bound
    function, represented by the function it wraps; a [bind] of the
    handler's own is called when it is a function, and is not callable
    otherwise. *)
Definition bind_undefined (handler : JsValue) : Outcome JsValue :=
  match handler with
  | JUndefined | JNull => _ ← get_prop handler "bind"; Threw not_callable
  | _ =>
      match bind_method handler with
      | FunctionPrototypeBind => Returned handler
      | Own (JFun fid props) => invoke node (JFun fid props) handler [JUndefined]
      | Own _ => Threw not_callable
      end
  end.

Definition describe (pkg handler : JsValue) : Outcome JobHandler :=
  pa ← get_prop pkg "argument";
  ha ← get_prop handler "argument";
  pi ← get_prop pkg "input";
  hi ← get_prop handler "input";
  po ← get_prop pkg "output";
  ho ← get_prop handler "output";
  pc ← get_prop pkg "channels";
  hc ← get_prop handler "channels";
  b ← bind_undefined handler;
  b ← assign_target b;
  Returned {| target := handler;
              bound := b;
              jobDescription := {| argument := _getValue [pa; ha];
                                   input := _getValue [pi; hi];
                                   output := _getValue [po; ho];
                                   channels := _getValue [pc; hc] |} |}.

Definition get (name : string) : Outcome (Observable (option JobHandler)) :=
  resolvedPath ← _resolve (moduleName name);
  match resolvedPath with
  | Some path =>
      if String.eqb path "" then Returned (rx_of None)
      else
        pkg ← require node path;
        handler ← get_prop pkg (export_key name);
        if truthy handler then
          h ← describe pkg handler;
          Returned (rx_of (Some h))
        else Returned (rx_of None)
  | None => Returned (rx_of None)
  end.

(** The outcomes of a lookup that the callers of [get] may want to tell
    apart. *)
Definition unresolved_module (name : string) : Prop :=
  exists e, require_resolve node (moduleName name) = Threw e /\
            is_module_not_found e = true.

Definition selected_export (name : string) (v : JsValue) : Prop :=
  exists path pkg,
    require_resolve node (moduleName name) = Returned path /\
    path <> "" /\
    require node path = Returned pkg /\
    get_prop pkg (export_key name) = Returned v.

Definition symbol_missing (name : string) : Prop :=
  exists v, selected_export name v /\ truthy v = false.

Definition returns_handler (name : string) : Prop :=
  exists h, get name = Returned (rx_of (Some h)).

(** No schema declared for slot [f], by the module or by the handler. *)
Definition undeclared (f : SchemaField) (pkg handler : JsValue) : Prop :=
  get_prop pkg (field_key f) = Returned JUndefined /\
  get_prop handler (field_key f) = Returned JUndefined.

Definition loaded_module (name : string) (pkg : JsValue) : Prop :=
  exists path, require_resolve node (moduleName name) = Returned path /\
               require node path = Returned pkg.

(** Slot [f] declared as the accept-anything schema [true]. *)
Definition declared_accept_anything (f : SchemaField) (pkg handler : JsValue) : Prop :=
  get_prop pkg (field_key f) = Returned (JBool true) \/
  (get_prop pkg (field_key f) = Returned JUndefined /\
   get_prop handler (field_key f) = Returned (JBool true)).

(** The two failures of a lookup give different results. *)
Definition failures_distinguished (n1 n2 : string) : Prop :=
  unresolved_module n1 -> symbol_missing n2 -> get n1 <> get n2.

(** A slot nobody declared differs from a slot declared [true]. *)
Definition absence_distinguished (f : SchemaField) (n1 n2 : string) : Prop :=
  forall h1 h2 pkg1 pkg2,
    get n1 = Returned (rx_of (Some h1)) -> loaded_module n1 pkg1 ->
    get n2 = Returned (rx_of (Some h2)) -> loaded_module n2 pkg2 ->
    undeclared f pkg1 (target h1) ->
    declared_accept_anything f pkg2 (target h2) ->
    attached f (jobDescription h1) <> attached f (jobDescription h2).

(** [handler.bind(undefined)] answers [b], a value [Object.assign] takes. *)
Definition binds (handler b : JsValue) : Prop :=
  bind_undefined handler = Returned b /\ b <> JUndefined /\ b <> JNull.

(** Neither the inherited [bind] nor a function of its own. *)
Definition no_callable_bind (handler : JsValue) : bool :=
  match bind_method handler with
  | FunctionPrototypeBind | Own (JFun _ _) => false
  | Own _ => true
  end.

(** A handler comes back exactly for a resolvable module with a truthy
    export. *)
Definition handler_iff_truthy_export (name : string) : Prop :=
  returns_handler name <-> exists v, selected_export name v /\ truthy v = true.

(** *** The three ways [get] can end *)

Lemma resolve_not_found (name : string) (e : JsError) :
  require_resolve node name = Threw e ->
  is_module_not_found e = true ->
  _resolve name = Returned None.
Proof. intros He Hc. unfold _resolve. by rewrite He, Hc. Qed.

Lemma resolve_rethrows (name : string) (e : JsError) :
  require_resolve node name = Threw e ->
  is_module_not_found e = false ->
  _resolve name = Threw e.
Proof. intros He Hc. unfold _resolve. by rewrite He, Hc. Qed.

Lemma resolve_found (name path : string) :
  require_resolve node name = Returned path ->
  _resolve name = Returned (Some path).
Proof. intros He. unfold _resolve. by rewrite He. Qed.

Lemma describe_target (pkg handler : JsValue) (h : JobHandler) :
  describe pkg handler = Returned h ->
  target h = handler /\ binds handler (bound h).
Proof.
  unfold describe. intros H.
  repeat match type of H with
         | (mbind _ ?m) = _ => destruct m eqn:?; simpl in H; [| discriminate]
         end.
  injection H as <-. simpl. split; [done |].
  match goal with
  | Ha : assign_target ?b = Returned ?b', Hb : bind_undefined handler = Returned ?b |- _ =>
      unfold binds; destruct b; simpl in Ha; try discriminate;
      injection Ha as <-; by rewrite Hb
  end.
Qed.

Lemma get_prop_truthy_owner (pkg : JsValue) (key : string) (v : JsValue) :
  get_prop pkg key = Returned v -> truthy v = true ->
  forall key', exists w, get_prop pkg key' = Returned w.
Proof.
  destruct pkg; simpl; intros H Ht key'; try discriminate; eauto;
    injection H as <-; discriminate.
Qed.

Lemma get_prop_truthy (v : JsValue) (key : string) :
  truthy v = true -> exists w, get_prop v key = Returned w.
Proof. destruct v; simpl; intros H; try discriminate; eauto. Qed.

Lemma describe_binds (pkg handler b : JsValue) (key : string) :
  get_prop pkg key = Returned handler -> truthy handler = true ->
  binds handler b ->
  exists h, describe pkg handler = Returned h /\ target h = handler /\ bound h = b.
Proof.
  intros Hget Ht (Hbind & Hu & Hn). unfold describe.
  pose proof (get_prop_truthy_owner _ _ _ Hget Ht) as Hpkg.
  pose proof (fun k => get_prop_truthy handler k Ht) as Hh.
  destruct (Hpkg "argument") as [? ->], (Hpkg "input") as [? ->],
    (Hpkg "output") as [? ->], (Hpkg "channels") as [? ->].
  destruct (Hh "argument") as [? ->], (Hh "input") as [? ->],
    (Hh "output") as [? ->], (Hh "channels") as [? ->].
  rewrite !bind_returned, Hbind, bind_returned.
  destruct b; try done; simpl; eauto.
Qed.

(** What [get] emits when it returns: one value, [null] or a handler for
    the export the name selects. *)
Lemma get_emits_one (name : string) (obs : Observable (option JobHandler)) :
  get name = Returned obs ->
  obs = rx_of None \/
  exists h path pkg,
    obs = rx_of (Some h) /\
    require_resolve node (moduleName name) = Returned path /\
    require node path = Returned pkg /\
    get_prop pkg (export_key name) = Returned (target h) /\
    truthy (target h) = true.
Proof.
  unfold get, _resolve. intros H.
  destruct (require_resolve node (moduleName name)) as [path | e] eqn:Hres; simpl in H.
  - destruct (String.eqb path "") eqn:Hp; [left; congruence |].
    destruct (require node path) as [pkg | e] eqn:Hreq; simpl in H; [| discriminate].
    destruct (get_prop pkg (export_key name)) as [handler | e] eqn:Hget;
      simpl in H; [| discriminate].
    destruct (truthy handler) eqn:Ht; [| left; congruence].
    destruct (describe pkg handler) as [h | e] eqn:Hd; simpl in H; [| discriminate].
    apply describe_target in Hd as [Htgt _].
    right. exists h, path, pkg. subst handler. repeat split; try done. congruence.
  - destruct (is_module_not_found e); simpl in H; [left; congruence | discriminate].
Qed.

Lemma get_unresolved (name : string) :
  unresolved_module name -> get name = Returned (rx_of None).
Proof.
  intros (e & He & Hc). unfold get.
  by rewrite (resolve_not_found _ _ He Hc).
Qed.

Lemma get_symbol_missing (name : string) :
  symbol_missing name -> get name = Returned (rx_of None).
Proof.
  intros (v & (path & pkg & Hres & Hne & Hreq & Hget) & Hfalsy). unfold get.
  rewrite (resolve_found _ _ Hres). simpl.
  apply String.eqb_neq in Hne. rewrite Hne, Hreq. simpl.
  rewrite Hget. simpl. by rewrite Hfalsy.
Qed.

Lemma get_selected_binds (name : string) (v b : JsValue) :
  selected_export name v -> truthy v = true -> binds v b -> returns_handler name.
Proof.
  intros (path & pkg & Hres & Hne & Hreq & Hget) Ht Hb. unfold returns_handler, get.
  rewrite (resolve_found _ _ Hres). simpl.
  apply String.eqb_neq in Hne. rewrite Hne, Hreq. simpl.
  rewrite Hget. simpl. rewrite Ht.
  destruct (describe_binds pkg v b _ Hget Ht Hb) as (h & -> & _).
  simpl. eauto.
Qed.

Lemma get_handler_selected (name : string) (h : JobHandler) :
  get name = Returned (rx_of (Some h)) ->
  selected_export name (target h) /\ truthy (target h) = true /\
  binds (target h) (bound h).
Proof.
  intros H. unfold get, _resolve in H.
  destruct (require_resolve node (moduleName name)) as [path | e] eqn:Hres; simpl in H.
  - destruct (String.eqb path "") eqn:Hp; [discriminate |].
    destruct (require node path) as [pkg | e] eqn:Hreq; simpl in H; [| discriminate].
    destruct (get_prop pkg (export_key name)) as [handler | e] eqn:Hget;
      simpl in H; [| discriminate].
    destruct (truthy handler) eqn:Ht; [| discriminate].
    destruct (describe pkg handler) as [h' | e] eqn:Hd; simpl in H; [| discriminate].
    injection H as ->.
    apply describe_target in Hd as [Htgt Hbinds]. subst handler.
    split; [| done]. exists path, pkg. apply String.eqb_neq in Hp. done.
  - destruct (is_module_not_found e); simpl in H; discriminate.
Qed.

(** The description attached to a returned handler is computed slot by
    slot from the module's and the handler's properties. *)
Lemma get_description (name : string) (h : JobHandler) (f : SchemaField) :
  get name = Returned (rx_of (Some h)) ->
  exists path pkg pv hv,
    require_resolve node (moduleName name) = Returned path /\
    require node path = Returned pkg /\
    get_prop pkg (field_key f) = Returned pv /\
    get_prop (target h) (field_key f) = Returned hv /\
    attached f (jobDescription h) = _getValue [pv; hv].
Proof.
  intros H. unfold get, _resolve in H.
  destruct (require_resolve node (moduleName name)) as [path | e] eqn:Hres; simpl in H.
  - destruct (String.eqb path "") eqn:Hp; [discriminate |].
    destruct (require node path) as [pkg | e] eqn:Hreq; simpl in H; [| discriminate].
    destruct (get_prop pkg (export_key name)) as [handler | e] eqn:Hget;
      simpl in H; [| discriminate].
    destruct (truthy handler) eqn:Ht; [| discriminate].
    destruct (describe pkg handler) as [h' | e] eqn:Hd; simpl in H; [| discriminate].
    injection H as ->.
    pose proof (describe_target _ _ _ Hd) as [Htgt _]. rewrite Htgt.
    unfold describe in Hd.
    repeat match type of Hd with
           | (mbind _ ?m) = _ => destruct m eqn:?; simpl in Hd; [| discriminate]
           end.
    injection Hd as <-. exists path, pkg.
    destruct f; simpl; eauto 10.
  - destruct (is_module_not_found e); simpl in H; discriminate.
Qed.

Lemma getValue_default (fields : list JsValue) :
  Forall (fun v => v = JUndefined \/ v = JBool true) fields ->
  _getValue fields = JBool true.
Proof.
  unfold _getValue. induction 1 as [| v rest [-> | ->] _ IH]; simpl.
  - done.
  - destruct (isJsonSchema JUndefined); [done | exact IH].
  - destruct (isJsonSchema (JBool true)); [done | exact IH].
Qed.

Lemma getValue_first_object (props : list (string * JsValue)) (rest : list JsValue) :
  isJsonSchema (JObj props) = true ->
  _getValue (JObj props :: rest) = JObj props.
Proof. intros H. unfold _getValue. simpl. by rewrite H. Qed.

Lemma get_truthy_not_function (name : string) (v : JsValue) :
  selected_export name v -> truthy v = true -> no_callable_bind v = true ->
  get name = Threw not_callable.
Proof.
  intros (path & pkg & Hres & Hne & Hreq & Hget) Ht Hf. unfold get.
  rewrite (resolve_found _ _ Hres). simpl.
  apply String.eqb_neq in Hne. rewrite Hne, Hreq. simpl.
  rewrite Hget. simpl. rewrite Ht.
  pose proof (get_prop_truthy_owner _ _ _ Hget Ht) as Hpkg.
  pose proof (fun k => get_prop_truthy v k Ht) as Hh.
  unfold describe.
  destruct (Hpkg "argument") as [? ->], (Hpkg "input") as [? ->],
    (Hpkg "output") as [? ->], (Hpkg "channels") as [? ->].
  destruct (Hh "argument") as [? ->], (Hh "input") as [? ->],
    (Hh "output") as [? ->], (Hh "channels") as [? ->].
  rewrite !bind_returned. unfold bind_undefined. unfold no_callable_bind in Hf.
  destruct v; simpl in Ht; try discriminate Ht;
    (destruct (bind_method _) as [| []]; try discriminate Hf; done).
Qed.

(** *** Splitting the job name *)

Lemma split_on_plain (s : string) :
  no_hash s = true -> split_on "#" s = [s].
Proof.
  induction s as [| a s IH]; simpl; [done |].
  intros [Ha Hs]%andb_prop. apply negb_true_iff in Ha. rewrite Ha.
  by rewrite (IH Hs).
Qed.

Lemma split_on_hash (m rest : string) :
  no_hash m = true ->
  split_on "#" (m ++ String "#" rest) = m :: split_on "#" rest.
Proof.
  induction m as [| a m IH]; simpl; [done |].
  intros [Ha Hm]%andb_prop. apply negb_true_iff in Ha. rewrite Ha.
  by rewrite (IH Hm).
Qed.

Lemma split_on_cons (sep : ascii) (s : string) :
  exists piece pieces, split_on sep s = piece :: pieces.
Proof.
  induction s as [| a s (p & ps & IH)]; simpl; [eauto |].
  destruct (Ascii.eqb a sep); [eauto |]. rewrite IH. eauto.
Qed.

Lemma name_plain (m : string) :
  no_hash m = true ->
  moduleName m = m /\ exportName m = None /\ export_key m = "default".
Proof.
  intros Hm. unfold export_key, exportName, moduleName, split_limit.
  by rewrite (split_on_plain _ Hm).
Qed.

Lemma name_with_export (m e tail : string) :
  no_hash m = true -> no_hash e = true ->
  moduleName (m ++ String "#" e) = m /\
  exportName (m ++ String "#" e) = Some e /\
  moduleName (m ++ String "#" (e ++ String "#" tail)) = m /\
  exportName (m ++ String "#" (e ++ String "#" tail)) = Some e.
Proof.
  intros Hm He. unfold exportName, moduleName, split_limit.
  rewrite !(split_on_hash _ _ Hm), (split_on_hash _ _ He), (split_on_plain _ He).
  destruct (split_on_cons "#" tail) as (p & ps & ->). done.
Qed.

(** *** Contract of [get] *)

(** C1: for every job name, [get] emits exactly one value, which is either
    [null] or the handler of the export the name selects, never both; a
    module path whose resolution raises [MODULE_NOT_FOUND] gives [null],
    and any other resolution error is thrown to the caller. *)
Theorem get_handler_or_not_found (name : string) :
  (forall obs, get name = Returned obs ->
     (obs = rx_of None \/
      exists h, obs = rx_of (Some h) /\ selected_export name (target h)) /\
     ~ (None ∈ obs /\ exists h, Some h ∈ obs)) /\
  (unresolved_module name -> get name = Returned (rx_of None)) /\
  (forall e, require_resolve node (moduleName name) = Threw e ->
             is_module_not_found e = false -> get name = Threw e).
Proof.
  split; [| split].
  - intros obs Hget.
    assert (Hone : obs = rx_of None \/
                   exists h, obs = rx_of (Some h) /\ selected_export name (target h)).
    { destruct (get_emits_one _ _ Hget) as [-> | (h & path & pkg & -> & _)];
        [by left | right].
      exists h. split; [done |]. by apply get_handler_selected. }
    split; [exact Hone |].
    intros [Hnull [h' Hsome]].
    destruct Hone as [-> | (h & -> & _)]; unfold rx_of in *.
    + apply list_elem_of_singleton in Hsome. discriminate.
    + apply list_elem_of_singleton in Hnull. discriminate.
  - apply get_unresolved.
  - intros e He Hc. unfold get. by rewrite (resolve_rethrows _ _ He Hc).
Qed.

(** C2 (amended): a module path that does not resolve and a resolved
    module that lacks the requested export are mapped to the same result
    of [get], the single value [null]. *)
Theorem lookup_failures_coincide (n1 n2 : string) :
  unresolved_module n1 -> symbol_missing n2 ->
  get n1 = Returned (rx_of None) /\ get n2 = get n1.
Proof.
  intros H1 H2. rewrite (get_unresolved _ H1), (get_symbol_missing _ H2). done.
Qed.

(** C3 (amended): in the description attached to a returned handler, a
    slot that neither the module nor the handler declares holds [true],
    the same value as a slot declared with the accept-anything schema
    [true]; an object schema declared by the module is attached as it is. *)
Theorem absent_schema_defaults_to_true (name : string) (h : JobHandler)
    (pkg : JsValue) (f : SchemaField) :
  get name = Returned (rx_of (Some h)) ->
  loaded_module name pkg ->
  (undeclared f pkg (target h) -> attached f (jobDescription h) = JBool true) /\
  (isJsonSchema (JBool true) = true ->
   declared_accept_anything f pkg (target h) ->
   attached f (jobDescription h) = JBool true) /\
  (forall props, get_prop pkg (field_key f) = Returned (JObj props) ->
                 isJsonSchema (JObj props) = true ->
                 attached f (jobDescription h) = JObj props).
Proof.
  intros Hget (path & Hres & Hreq).
  destruct (get_description _ _ f Hget)
    as (path' & pkg' & pv & hv & Hres' & Hreq' & Hpv & Hhv & ->).
  assert (path' = path) as -> by congruence.
  assert (pkg' = pkg) as -> by congruence.
  split; [| split].
  - intros [Hp Hh]. apply getValue_default.
    constructor; [left; congruence |].
    constructor; [left; congruence | constructor].
  - intros Htrue [Hp | [Hp Hh]].
    + assert (pv = JBool true) as -> by congruence.
      unfold _getValue. simpl. by rewrite Htrue.
    + apply getValue_default.
      constructor; [left; congruence |].
      constructor; [right; congruence | constructor].
  - intros props Hp Hs. assert (pv = JObj props) as -> by congruence.
    by apply getValue_first_object.
Qed.

(** C9 (amended): the job name is cut at its ['#'] characters and the
    first two pieces are the module path and the export name (the
    ['default'] export when the name has no second piece or an empty one);
    [get] returns a handler if and only if the module path resolves to a
    non-empty path, the module loads, the chosen export is truthy and its
    [bind], called with [undefined], answers a value other than
    [undefined] and [null]: always for a function that has no [bind] of
    its own, and never for a truthy export whose [bind] is not callable,
    for which [get] throws a [TypeError]. *)
Theorem get_returns_handler_iff (name m e tail : string) :
  no_hash m = true -> no_hash e = true ->
  (moduleName m = m /\ export_key m = "default") /\
  (moduleName (m ++ String "#" e) = m /\
   export_key (m ++ String "#" e) = (if String.eqb e "" then "default" else e)) /\
  (moduleName (m ++ String "#" (e ++ String "#" tail)) = m /\
   exportName (m ++ String "#" (e ++ String "#" tail)) = Some e) /\
  (returns_handler name <->
   exists v b, selected_export name v /\ truthy v = true /\ binds v b) /\
  (forall fid props,
     selected_export name (JFun fid props) -> has_key "bind" props = false ->
     returns_handler name) /\
  (forall v,
     selected_export name v -> truthy v = true -> no_callable_bind v = true ->
     get name = Threw not_callable).
Proof.
  intros Hm He.
  destruct (name_plain _ Hm) as (Hp1 & _ & Hp2).
  destruct (name_with_export _ _ tail Hm He) as (Hn1 & Hn2 & Hn3 & Hn4).
  split; [done |]. split; [split; [done |] |].
  { unfold export_key. by rewrite Hn2. }
  split; [done |]. split; [split |]; [| | split].
  - intros [h Hget]. destruct (get_handler_selected _ _ Hget) as (Hsel & Ht & Hb).
    eauto.
  - intros (v & b & Hsel & Ht & Hb). by eapply get_selected_binds.
  - intros fid props Hsel Hown.
    apply (get_selected_binds name (JFun fid props) (JFun fid props)); [done | done |].
    unfold binds, bind_undefined, bind_method. rewrite Hown. done.
  - apply get_truthy_not_function.
Qed.

End Registry.

(** *** A loader with one module *)

Definition job_module : JsValue :=
  JObj [("default", JFun 1 []);
        ("run", JFun 2 [("argument", JBool true)]);
        ("version", JStr "1.0.0")].

Definition cannot_find (request : string) : JsError :=
  mkError PlainError (Some MODULE_NOT_FOUND) ("Cannot find module " ++ request) "".

Definition invalid_request : JsError :=
  mkError TypeError (Some "ERR_INVALID_ARG_VALUE")
          "The argument 'id' must be a non-empty string" "".

Definition one_module : Loader := {|
  require_resolve := fun request =>
    if String.eqb request "./job" then Returned "/work/job.js"
    else if String.eqb request "" then Threw invalid_request
    else Threw (cannot_find request);
  require := fun path =>
    if String.eqb path "/work/job.js" then Returned job_module
    else Threw (cannot_find path);
  invoke := fun _ _ _ => Returned JUndefined;
|}.

(** Plain objects and the two booleans pass for JSON schemas. *)
Definition object_or_boolean (v : JsValue) : bool :=
  match v with
  | JObj _ | JBool _ => true
  | _ => false
  end.

Definition default_handler : JobHandler :=
  {| target := JFun 1 [];
     bound := JFun 1 [];
     jobDescription := {| argument := JBool true; input := JBool true;
                          output := JBool true; channels := JBool true |} |}.

Example get_default_export :
  get one_module object_or_boolean "./job" = Returned [Some default_handler].
Proof. reflexivity. Qed.

Example get_named_export_cut :
  get one_module object_or_boolean "./job#run#ignored" =
  get one_module object_or_boolean "./job#run".
Proof. reflexivity. Qed.

Example get_malformed_name :
  get one_module object_or_boolean "" = Threw invalid_request.
Proof. reflexivity. Qed.

Lemma nope_unresolved : unresolved_module one_module "nope#run".
Proof. exists (cannot_find "nope"). split; reflexivity. Qed.

Lemma absent_symbol_missing : symbol_missing one_module "./job#absent".
Proof.
  exists JUndefined. split; [| reflexivity].
  exists "/work/job.js", job_module. repeat split; done.
Qed.

Lemma version_selected : selected_export one_module "./job#version" (JStr "1.0.0").
Proof. exists "/work/job.js", job_module. repeat split; done. Qed.

Lemma job_loaded (name : string) :
  moduleName name = "./job" -> loaded_module one_module name job_module.
Proof. intros H. exists "/work/job.js". unfold one_module. simpl. by rewrite H. Qed.

Lemma get_handler_or_not_found_witness :
  get one_module object_or_boolean "nope#run" = Returned (rx_of None) /\
  get one_module object_or_boolean "" = Threw invalid_request.
Proof.
  destruct (get_handler_or_not_found one_module object_or_boolean "nope#run")
    as (_ & Hnull & _).
  destruct (get_handler_or_not_found one_module object_or_boolean "")
    as (_ & _ & Hthrow).
  split; [apply Hnull, nope_unresolved | by apply Hthrow].
Defined.

(** C2, as stated, fails: the unresolvable [nope#run] and the missing
    export [./job#absent] give the same result. *)
Lemma lookup_failures_not_distinguished :
  ~ failures_distinguished one_module object_or_boolean "nope#run" "./job#absent".
Proof.
  intros H. by apply (H nope_unresolved absent_symbol_missing).
Qed.

Lemma lookup_failures_coincide_witness :
  get one_module object_or_boolean "nope#run" = Returned (rx_of None) /\
  get one_module object_or_boolean "./job#absent" =
  get one_module object_or_boolean "nope#run".
Proof.
  exact (lookup_failures_coincide one_module object_or_boolean
           "nope#run" "./job#absent" nope_unresolved absent_symbol_missing).
Defined.

(** C3, as stated, fails: the default export declares no argument schema,
    the export [run] declares [true], and both descriptions hold [true]. *)
Lemma absent_schema_not_distinguished :
  ~ absence_distinguished one_module object_or_boolean FArgument "./job" "./job#run".
Proof.
  intros H.
  refine (H _ _ job_module job_module eq_refl (job_loaded "./job" eq_refl)
            eq_refl (job_loaded "./job#run" eq_refl) _ _ eq_refl).
  - split; reflexivity.
  - right. split; reflexivity.
Qed.

Lemma absent_schema_defaults_to_true_witness :
  get one_module object_or_boolean "./job" = Returned (rx_of (Some default_handler)) /\
  undeclared FArgument job_module (target default_handler) /\
  attached FArgument (jobDescription default_handler) = JBool true.
Proof.
  assert (Hundeclared : undeclared FArgument job_module (target default_handler))
    by (split; reflexivity).
  split; [reflexivity | split; [exact Hundeclared |]].
  destruct (absent_schema_defaults_to_true one_module object_or_boolean
              "./job" default_handler job_module FArgument eq_refl
              (job_loaded "./job" eq_refl))
    as (Habsent & _).
  exact (Habsent Hundeclared).
Defined.

(** C9, as stated, fails: [./job#version] selects a truthy export that is
    a string, and [get] throws instead of returning a handler. *)
Lemma truthy_export_without_handler :
  ~ handler_iff_truthy_export one_module object_or_boolean "./job#version".
Proof.
  intros [_ H].
  destruct H as [h Hget]; [| discriminate Hget].
  exists (JStr "1.0.0"). split; [apply version_selected | reflexivity].
Qed.

Lemma get_returns_handler_iff_witness :
  returns_handler one_module object_or_boolean "./job#run" /\
  export_key "./job" = "default".
Proof.
  destruct (get_returns_handler_iff one_module object_or_boolean
              "./job#run" "./job" "run" "" eq_refl eq_refl)
    as ((_ & Hdefault) & _ & _ & _ & Hfunction & _).
  split; [| exact Hdefault].
  apply (Hfunction 2 [("argument", JBool true)]); [| reflexivity].
  exists "/work/job.js", job_module. repeat split; done.
Defined.

(** *** Exports with a [bind] of their own *)

(** A function whose [bind] was overwritten with a number, and an object
    that carries a [bind] function. *)
Definition binding_module : JsValue :=
  JObj [("overwritten", JFun 3 [("bind", JNum 5)]);
        ("lookalike", JObj [("bind", JFun 7 [])])].

(** Function 7 answers the object it is called on. *)
Definition own_binds : Loader := {|
  require_resolve := fun request => Returned "/work/binding.js";
  require := fun path => Returned binding_module;
  invoke := fun f this arguments => Returned this;
|}.

Example get_overwritten_bind :
  get own_binds object_or_boolean "./binding#overwritten" = Threw not_callable.
Proof. reflexivity. Qed.

Example get_lookalike :
  get own_binds object_or_boolean "./binding#lookalike" =
  Returned [Some {| target := JObj [("bind", JFun 7 [])];
                    bound := JObj [("bind", JFun 7 [])];
                    jobDescription := {| argument := JBool true; input := JBool true;
                                         output := JBool true;
                                         channels := JBool true |} |}].
Proof. reflexivity. Qed.

End JobRegistry.

(** ** The staged file tree *)

Module VirtualTree.

(** Modelled from the spec: the Tree implementation is not among the
    sources, so the staged overlay of sections 3 and 4.1 is written down
    here: a base file store, an append-only log of staged actions,
    reads that replay the log over the base store, and the three staging
    calls with their preconditions.  Renames are left out; nothing below
    stages one. *)
Inductive Action :=
| Create (path : string) (content : string)
| Overwrite (path : string) (content : string)
| Delete (path : string).

Record Tree := mkTree {
  base : gmap string string;
  actions : list Action;
}.

Definition seeded (store : gmap string string) : Tree := mkTree store [].

Definition replay (store : gmap string string) (a : Action) : gmap string string :=
  match a with
  | Create p c | Overwrite p c => <[p := c]> store
  | Delete p => delete p store
  end.

(** The files a reader of the tree sees. *)
Definition files (t : Tree) : gmap string string :=
  foldl replay (base t) (actions t).

Definition read (t : Tree) (p : string) : option string := files t !! p.

Definition stage (a : Action) (t : Tree) : Tree :=
  mkTree (base t) (actions t ++ [a]).

Definition path_already_exists (p : string) : JsError :=
  mkError PathAlreadyExistsError None ("Path " ++ p ++ " already exist.") "".

Definition path_does_not_exist (p : string) : JsError :=
  mkError PathDoesNotExistError None ("Path " ++ p ++ " does not exist.") "".

Definition create (p c : string) (t : Tree) : Outcome Tree :=
  match read t p with
  | Some _ => Threw (path_already_exists p)
  | None => Returned (stage (Create p c) t)
  end.

Definition overwrite (p c : string) (t : Tree) : Outcome Tree :=
  match read t p with
  | Some _ => Returned (stage (Overwrite p c) t)
  | None => Threw (path_does_not_exist p)
  end.

Definition delete_ (p : string) (t : Tree) : Outcome Tree :=
  match read t p with
  | Some _ => Returned (stage (Delete p) t)
  | None => Threw (path_does_not_exist p)
  end.

(** A staging call on a path that the caller fixes. *)
Inductive Op :=
| OpCreate (content : string)
| OpOverwrite (content : string)
| OpDelete.

Definition issue (p : string) (op : Op) (t : Tree) : Outcome Tree :=
  match op with
  | OpCreate c => create p c t
  | OpOverwrite c => overwrite p c t
  | OpDelete => delete_ p t
  end.

(** The calls of [ops] in order; the first failure ends the run. *)
Fixpoint issue_all (p : string) (ops : list Op) (t : Tree) : Outcome Tree :=
  match ops with
  | [] => Returned t
  | op :: rest => t' ← issue p op t; issue_all p rest t'
  end.

(** The effective action of one path, as exposed for commit. *)
Inductive Effective :=
| NoAction
| DoCreate (content : string)
| DoOverwrite (content : string)
| DoDelete.

(** Modelled from the spec: one step of the per-path fold.  Section 4.1
    fixes create-then-delete (no action) and create-then-overwrite (create
    with the final content); the other steps are the ones that keep the
    fold in agreement with what [read] answers. *)
Definition fold_step (e : Effective) (op : Op) : Effective :=
  match e, op with
  | DoCreate _, OpDelete => NoAction
  | DoCreate _, OpOverwrite c => DoCreate c
  | DoCreate _, OpCreate c => DoCreate c
  | NoAction, OpCreate c => DoCreate c
  | NoAction, OpOverwrite c => DoOverwrite c
  | NoAction, OpDelete => DoDelete
  | DoOverwrite _, OpDelete => DoDelete
  | DoOverwrite _, OpOverwrite c => DoOverwrite c
  | DoOverwrite _, OpCreate c => DoOverwrite c
  | DoDelete, OpCreate c => DoOverwrite c
  | DoDelete, OpOverwrite c => DoOverwrite c
  | DoDelete, OpDelete => DoDelete
  end.

Definition op_on (p : string) (a : Action) : option Op :=
  match a with
  | Create q c => if String.eqb q p then Some (OpCreate c) else None
  | Overwrite q c => if String.eqb q p then Some (OpOverwrite c) else None
  | Delete q => if String.eqb q p then Some OpDelete else None
  end.

Definition log_step (p : string) (e : Effective) (a : Action) : Effective :=
  match op_on p a with
  | Some op => fold_step e op
  | None => e
  end.

(** The action log folded for path [p]. *)
Definition effective (t : Tree) (p : string) : Effective :=
  foldl (log_step p) NoAction (actions t).

(** What an effective action leaves at its path in the store. *)
Definition commit_at (e : Effective) (before : option string) : option string :=
  match e with
  | NoAction => before
  | DoCreate c | DoOverwrite c => Some c
  | DoDelete => None
  end.

(** The precondition of a staging call. *)
Definition permitted (t : Tree) (p : string) (op : Op) : bool :=
  match op, read t p with
  | OpCreate _, None => true
  | OpCreate _, Some _ => false
  | (OpOverwrite _ | OpDelete), Some _ => true
  | (OpOverwrite _ | OpDelete), None => false
  end.

(** Every violated precondition is reported as [PathDoesNotExistError]. *)
Definition violations_report_missing_path (t : Tree) (p : string) (op : Op) : Prop :=
  permitted t p op = false ->
  exists e, issue p op t = Threw e /\ err_class e = PathDoesNotExistError.

(** Trees built by staging calls on a seeded store. *)
Inductive staged : Tree -> Prop :=
| staged_seeded store : staged (seeded store)
| staged_issue t p op t' : staged t -> issue p op t = Returned t' -> staged t'.

Definition action_of (p : string) (op : Op) : Action :=
  match op with
  | OpCreate c => Create p c
  | OpOverwrite c => Overwrite p c
  | OpDelete => Delete p
  end.

(** The error a refused call is reported with. *)
Definition refusal (op : Op) : ErrorClass :=
  match op with
  | OpCreate _ => PathAlreadyExistsError
  | OpOverwrite _ | OpDelete => PathDoesNotExistError
  end.

(** [read] and the folded log tell the same story about path [p]. *)
Definition agrees (t : Tree) (p : string) : Prop :=
  read t p = commit_at (effective t p) (base t !! p) /\
  match effective t p with
  | NoAction => True
  | DoCreate _ => base t !! p = None
  | DoOverwrite _ | DoDelete => is_Some (base t !! p)
  end.

Lemma files_stage (a : Action) (t : Tree) :
  files (stage a t) = replay (files t) a.
Proof. unfold files, stage. simpl. by rewrite foldl_app. Qed.

Lemma effective_stage (a : Action) (t : Tree) (p : string) :
  effective (stage a t) p = log_step p (effective t p) a.
Proof. unfold effective, stage. simpl. by rewrite foldl_app. Qed.

Lemma op_on_same (p : string) (op : Op) : op_on p (action_of p op) = Some op.
Proof. destruct op; simpl; by rewrite String.eqb_refl. Qed.

Lemma op_on_other (p q : string) (op : Op) :
  q <> p -> op_on p (action_of q op) = None.
Proof.
  intros Hne. apply String.eqb_neq in Hne. destruct op; simpl; by rewrite Hne.
Qed.

Lemma issue_permitted (t : Tree) (p : string) (op : Op) :
  permitted t p op = true -> issue p op t = Returned (stage (action_of p op) t).
Proof.
  unfold permitted, issue, create, overwrite, delete_.
  destruct op, (read t p); simpl; intros H; done.
Qed.

Lemma issue_refused (t : Tree) (p : string) (op : Op) :
  permitted t p op = false ->
  exists e, issue p op t = Threw e /\ err_class e = refusal op.
Proof.
  unfold permitted, issue, create, overwrite, delete_.
  destruct op, (read t p); simpl; intros H; try discriminate; eauto.
Qed.

Lemma issue_returned (t t' : Tree) (p : string) (op : Op) :
  issue p op t = Returned t' ->
  permitted t p op = true /\ t' = stage (action_of p op) t.
Proof.
  intros H. destruct (permitted t p op) eqn:Hp.
  - rewrite (issue_permitted _ _ _ Hp) in H. by injection H as <-.
  - destruct (issue_refused _ _ _ Hp) as (e & He & _). congruence.
Qed.

Lemma effective_issue (t t' : Tree) (p : string) (op : Op) :
  issue p op t = Returned t' ->
  effective t' p = fold_step (effective t p) op.
Proof.
  intros [_ ->]%issue_returned.
  rewrite effective_stage. unfold log_step. by rewrite op_on_same.
Qed.

Lemma effective_issue_other (t t' : Tree) (p q : string) (op : Op) :
  q <> p -> issue q op t = Returned t' -> effective t' p = effective t p.
Proof.
  intros Hne [_ ->]%issue_returned.
  rewrite effective_stage. unfold log_step. by rewrite (op_on_other _ _ _ Hne).
Qed.

Lemma effective_issue_all (p : string) (ops : list Op) (t t' : Tree) :
  issue_all p ops t = Returned t' ->
  effective t' p = foldl fold_step (effective t p) ops.
Proof.
  revert t. induction ops as [| op ops IH]; simpl; intros t H.
  - by injection H as <-.
  - destruct (issue p op t) as [t1 |] eqn:H1; simpl in H; [| discriminate].
    rewrite (IH _ H). by rewrite (effective_issue _ _ _ _ H1).
Qed.

Lemma replay_same (store : gmap string string) (p : string) (op : Op) :
  replay store (action_of p op) !! p =
  match op with
  | OpCreate c | OpOverwrite c => Some c
  | OpDelete => None
  end.
Proof. destruct op; simpl; by rewrite ?lookup_insert_eq, ?lookup_delete_eq. Qed.

Lemma replay_other (store : gmap string string) (p q : string) (op : Op) :
  q <> p -> replay store (action_of q op) !! p = store !! p.
Proof.
  intros Hne. destruct op; simpl; by rewrite ?lookup_insert_ne, ?lookup_delete_ne.
Qed.

Lemma agrees_issue (t t' : Tree) (p q : string) (op : Op) :
  agrees t p -> issue q op t = Returned t' -> agrees t' p.
Proof.
  intros [Hread Hbase] Hissue. destruct (decide (q = p)) as [-> | Hne].
  - pose proof (effective_issue _ _ _ _ Hissue) as Heff.
    apply issue_returned in Hissue as [Hperm ->].
    unfold agrees, read in *. rewrite files_stage, replay_same, Heff. simpl base.
    unfold permitted, read in Hperm.
    destruct (effective t p), op, (files t !! p) eqn:Hf; simpl in *;
      try discriminate; try done; split; try done; by rewrite <- ?Hread.
  - pose proof (effective_issue_other _ _ _ _ _ Hne Hissue) as Heff.
    apply issue_returned in Hissue as [_ ->].
    unfold agrees, read in *. rewrite files_stage, (replay_other _ _ _ _ Hne), Heff.
    done.
Qed.

Lemma staged_agrees (t : Tree) (p : string) : staged t -> agrees t p.
Proof.
  induction 1 as [store | t q op t' _ IH Hissue].
  - by split.
  - by eapply agrees_issue.
Qed.

Lemma staged_issue_all (p : string) (ops : list Op) (t t' : Tree) :
  staged t -> issue_all p ops t = Returned t' -> staged t'.
Proof.
  revert t. induction ops as [| op ops IH]; simpl; intros t Hs H.
  - by injection H as <-.
  - destruct (issue p op t) as [t1 |] eqn:H1; simpl in H; [| discriminate].
    eapply IH; [| exact H]. by eapply staged_issue.
Qed.

Lemma create_then (t : Tree) (p c : string) (op : Op) :
  read t p = None ->
  (forall c', op <> OpCreate c') ->
  exists t', issue_all p [OpCreate c; op] t = Returned t' /\
             effective t' p = fold_step (fold_step (effective t p) (OpCreate c)) op.
Proof.
  intros Hread Hop.
  assert (H1 : issue p (OpCreate c) t = Returned (stage (Create p c) t)).
  { apply (issue_permitted t p (OpCreate c)). unfold permitted. by rewrite Hread. }
  assert (H2 : permitted (stage (Create p c) t) p op = true).
  { unfold permitted, read. rewrite files_stage. simpl. rewrite lookup_insert_eq.
    destruct op; try done. by destruct (Hop content). }
  exists (stage (action_of p op) (stage (Create p c) t)). split.
  - cbn [issue_all]. rewrite H1, bind_returned.
    by rewrite (issue_permitted _ _ _ H2), bind_returned.
  - rewrite !effective_stage. unfold log_step.
    rewrite op_on_same. simpl. by rewrite String.eqb_refl.
Qed.

(** C4 (amended): for every sequence of create, overwrite and delete calls
    staged on one path of a Tree, the effective action of that path is the
    fold of the sequence over the action the path had before, and it
    agrees with what a read of the path answers; on a path with no action
    yet, create followed by delete leaves no action and create followed by
    overwrite leaves one create with the latest content; an overwrite or a
    delete on a path that does not exist fails with
    [PathDoesNotExistError], and a create on a path that exists fails with
    [PathAlreadyExistsError]. *)
Theorem effective_action_is_fold (t : Tree) (p : string) (ops : list Op) :
  (forall t', issue_all p ops t = Returned t' ->
     effective t' p = foldl fold_step (effective t p) ops /\
     (staged t -> read t' p = commit_at (effective t' p) (base t !! p))) /\
  (forall c, effective t p = NoAction -> read t p = None ->
     exists t', issue_all p [OpCreate c; OpDelete] t = Returned t' /\
                effective t' p = NoAction) /\
  (forall c c', effective t p = NoAction -> read t p = None ->
     exists t', issue_all p [OpCreate c; OpOverwrite c'] t = Returned t' /\
                effective t' p = DoCreate c') /\
  (forall op, permitted t p op = false ->
     exists e, issue p op t = Threw e /\
               err_class e = match op with
                             | OpCreate _ => PathAlreadyExistsError
                             | OpOverwrite _ | OpDelete => PathDoesNotExistError
                             end).
Proof.
  repeat split.
  - by apply effective_issue_all.
  - intros Hs.
    assert (Hbase : base t' = base t).
    { clear Hs. revert t H. induction ops as [| op ops IH]; simpl; intros t H.
      - by injection H as <-.
      - destruct (issue p op t) as [t1 |] eqn:H1; simpl in H; [| discriminate].
        rewrite (IH _ H). by apply issue_returned in H1 as [_ ->]. }
    rewrite <- Hbase. apply staged_agrees. by eapply staged_issue_all.
  - intros c Heff Hread.
    destruct (create_then t p c OpDelete Hread) as (t' & Hrun & Hfold); [done |].
    exists t'. split; [done |]. by rewrite Hfold, Heff.
  - intros c c' Heff Hread.
    destruct (create_then t p c (OpOverwrite c') Hread) as (t' & Hrun & Hfold);
      [done |].
    exists t'. split; [done |]. by rewrite Hfold, Heff.
  - intros op Hperm. exact (issue_refused t p op Hperm).
Qed.

(** *** A store holding one file *)

Definition one_file : Tree := seeded {[ "a.txt" := "x" ]}.

Example scenario_create_overwrite :
  (t' ← issue_all "b.txt" [OpCreate "1"; OpOverwrite "2"] one_file;
   Returned (effective t' "b.txt", read t' "b.txt"))
  = Returned (DoCreate "2", Some "2").
Proof. reflexivity. Qed.

Example scenario_overwrite_missing :
  overwrite "b.txt" "2" one_file = Threw (path_does_not_exist "b.txt").
Proof. reflexivity. Qed.

(** C4, as stated, fails: a create on a path that exists violates its
    precondition and is reported as [PathAlreadyExistsError]. *)
Lemma create_violation_not_missing_path :
  ~ violations_report_missing_path one_file "a.txt" (OpCreate "y").
Proof.
  intros H. destruct (H eq_refl) as (e & Hthrow & Hclass).
  injection Hthrow as <-. discriminate Hclass.
Qed.

Lemma effective_action_is_fold_witness :
  (exists t', issue_all "b.txt" [OpCreate "1"; OpDelete] one_file = Returned t' /\
              effective t' "b.txt" = NoAction) /\
  (exists e, issue "b.txt" (OpOverwrite "2") one_file = Threw e /\
             err_class e = PathDoesNotExistError).
Proof.
  destruct (effective_action_is_fold one_file "b.txt" [])
    as (_ & Hcancel & _ & Hrefuse).
  split.
  - exact (Hcancel "1" eq_refl eq_refl).
  - exact (Hrefuse (OpOverwrite "2") eq_refl).
Defined.

End VirtualTree.

(** ** SchematicCommand *)

Module SchematicCommand.

Inductive LogLevel := Debug | Info | Warn | Error | Fatal.

Record LogEntry := mkEntry {
  level : LogLevel;
  message : string;
}.

#[global] Instance LogLevel_eq_dec : EqDecision LogLevel.
Proof. solve_decision. Defined.

(** The events of [workflow.reporter], by kind. *)
Inductive DryRunEvent :=
| ErrorEvent (path description : string)
| UpdateEvent (path content : string)
| CreateEvent (path content : string)
| DeleteEvent (path : string)
| RenameEvent (path to : string).

(** What a run of the workflow sends to the two subscriptions. *)
Inductive WorkflowEvent :=
| Report (event : DryRunEvent)
| LifeCycle (kind : string).

(** The string helpers the command imports: the terminal colours and the
    [oneLine] template tag. *)
Record Formatting := {
  cyan : string -> string;
  green : string -> string;
  yellow : string -> string;
  blue : string -> string;
  oneLine : string -> string;
}.

(** The locals of [runSchematic] that its subscriptions share, and the
    entries written to [this.logger]. *)
Record RunState := mkState {
  nothingDone : bool;
  loggingQueue : list string;
  error : bool;
  log : list LogEntry;
}.

Definition initial : RunState := mkState true [] false [].

Definition logger (lvl : LogLevel) (msg : string) (s : RunState) : RunState :=
  mkState (nothingDone s) (loggingQueue s) (error s) (log s ++ [mkEntry lvl msg]).

Definition push (msg : string) (s : RunState) : RunState :=
  mkState (nothingDone s) (loggingQueue s ++ [msg]) (error s) (log s).

(** [p.startsWith('/') ? p.substr(1) : p] *)
Definition strip_slash (p : string) : string :=
  match p with
  | String "/" rest => rest
  | _ => p
  end.


Section Run.

Variable fmt : Formatting.

Definition sized (label path content : string) : string :=
  oneLine fmt (newline ++ "            " ++ label ++ " " ++ path ++ " (" ++
               pretty (String.length content) ++ " bytes)" ++
               newline ++ "          ").

(** The subscription to [workflow.reporter]. *)
Definition on_report (event : DryRunEvent) (s0 : RunState) : RunState :=
  let s := mkState false (loggingQueue s0) (error s0) (log s0) in
  match event with
  | ErrorEvent path description =>
      let desc := if String.eqb description "alreadyExist"
                  then "already exists" else "does not exist." in
      logger Warn ("ERROR! " ++ strip_slash path ++ " " ++ desc ++ ".")
             (mkState (nothingDone s) (loggingQueue s) true (log s))
  | UpdateEvent path content =>
      push (sized (cyan fmt "UPDATE") (strip_slash path) content) s
  | CreateEvent path content =>
      push (sized (green fmt "CREATE") (strip_slash path) content) s
  | DeleteEvent path =>
      push (yellow fmt "DELETE" ++ " " ++ strip_slash path) s
  | RenameEvent path to =>
      push (blue fmt "RENAME" ++ " " ++ strip_slash path ++ " => " ++ strip_slash to) s
  end.

Definition is_boundary (kind : string) : bool :=
  String.eqb kind "end" || String.eqb kind "post-tasks-start".

(** [loggingQueue.forEach(log => this.logger.info(log))] *)
Definition flush (queue : list string) (s : RunState) : RunState :=
  foldl (fun acc msg => logger Info msg acc) s queue.

(** The subscription to [workflow.lifeCycle]. *)
Definition on_lifeCycle (kind : string) (s : RunState) : RunState :=
  if is_boundary kind then
    let s1 := if error s then s else flush (loggingQueue s) s in
    mkState (nothingDone s1) [] false (log s1)
  else s.

Definition handle (s : RunState) (ev : WorkflowEvent) : RunState :=
  match ev with
  | Report event => on_report event s
  | LifeCycle kind => on_lifeCycle kind s
  end.

Definition run (s : RunState) (evs : list WorkflowEvent) : RunState :=
  foldl handle s evs.

(** The message an event adds to [loggingQueue], if any, read off
    [on_report] run on the empty queue. *)
Definition queued (ev : WorkflowEvent) : option string :=
  match ev with
  | Report event =>
      match event with
      | ErrorEvent _ _ => None
      | _ => last (loggingQueue (on_report event initial))
      end
  | LifeCycle _ => None
  end.

Definition is_error (ev : WorkflowEvent) : bool :=
  match ev with
  | Report (ErrorEvent _ _) => true
  | _ => false
  end.

Definition crosses_boundary (ev : WorkflowEvent) : bool :=
  match ev with
  | LifeCycle kind => is_boundary kind
  | Report _ => false
  end.

(** A stretch of events between two phase boundaries. *)
Definition within_phase (evs : list WorkflowEvent) : Prop :=
  Forall (fun ev => crosses_boundary ev = false) evs.

Definition phase_queue (evs : list WorkflowEvent) : list string :=
  omap queued evs.

Definition phase_failed (evs : list WorkflowEvent) : bool :=
  existsb is_error evs.

Definition infos (entries : list LogEntry) : list string :=
  message <$> filter (fun e => level e = Info) entries.

(** *** Flushing the logging queue *)

Lemma infos_app (a b : list LogEntry) : infos (a ++ b) = (infos a ++ infos b)%list.
Proof. unfold infos. by rewrite filter_app, fmap_app. Qed.

Lemma infos_info (q : list string) : infos (mkEntry Info <$> q) = q.
Proof.
  unfold infos. induction q as [| m q IH]; [done |].
  rewrite fmap_cons, filter_cons_True by done. rewrite fmap_cons. by rewrite IH.
Qed.

Lemma flush_log (q : list string) (s : RunState) :
  flush q s = mkState (nothingDone s) (loggingQueue s) (error s)
                      (log s ++ (mkEntry Info <$> q)).
Proof.
  unfold flush. revert s. induction q as [| m q IH]; intros s; simpl.
  - rewrite app_nil_r. by destruct s.
  - rewrite IH. simpl. by rewrite <- app_assoc.
Qed.

Lemma handle_within (s : RunState) (ev : WorkflowEvent) :
  crosses_boundary ev = false ->
  loggingQueue (handle s ev) = (loggingQueue s ++ option_list (queued ev))%list /\
  error (handle s ev) = error s || is_error ev /\
  infos (log (handle s ev)) = infos (log s) /\
  (is_error ev = false -> log (handle s ev) = log s).
Proof.
  intros Hb. destruct ev as [event | kind]; simpl in *.
  - destruct event; simpl; rewrite ?orb_true_r, ?orb_false_r;
      repeat split; try done; try by rewrite app_nil_r.
    rewrite infos_app. exact (app_nil_r _).
  - unfold on_lifeCycle. rewrite Hb, orb_false_r, app_nil_r. done.
Qed.

Lemma run_within (evs : list WorkflowEvent) (s : RunState) :
  within_phase evs ->
  loggingQueue (run s evs) = (loggingQueue s ++ phase_queue evs)%list /\
  error (run s evs) = error s || phase_failed evs /\
  infos (log (run s evs)) = infos (log s).
Proof.
  intros Hp. revert s. induction Hp as [| ev evs Hev _ IH]; intros s; simpl.
  - by rewrite app_nil_r, orb_false_r.
  - destruct (IH (handle s ev)) as (Hq & He & Hi).
    destruct (handle_within s ev Hev) as (Hq1 & He1 & Hi1 & _).
    unfold run in *. rewrite Hq, He, Hi, Hq1, He1, Hi1.
    repeat split; [| by rewrite orb_assoc].
    rewrite <- app_assoc. f_equal. unfold phase_queue. simpl.
    by destruct (queued ev).
Qed.

Lemma boundary_flush (kind : string) (s : RunState) :
  is_boundary kind = true ->
  on_lifeCycle kind s =
  mkState (nothingDone s) [] false
          (log s ++ if error s then [] else mkEntry Info <$> loggingQueue s)%list.
Proof.
  intros Hb. unfold on_lifeCycle. rewrite Hb.
  destruct (error s); [by rewrite app_nil_r |]. by rewrite flush_log.
Qed.

(** What is logged from a state onwards does not depend on what was logged
    before. *)
Lemma handle_log (s : RunState) (ev : WorkflowEvent) (done_ : bool) :
  handle s ev =
  let s' := handle (mkState done_ (loggingQueue s) (error s) []) ev in
  mkState (nothingDone (handle s ev)) (loggingQueue s') (error s') (log s ++ log s').
Proof.
  destruct ev as [event | kind]; simpl.
  - destruct event; simpl; by rewrite ?app_nil_r.
  - unfold on_lifeCycle. destruct (is_boundary kind); simpl.
    + destruct (error s); simpl; [by rewrite app_nil_r |].
      by rewrite !flush_log.
    + destruct s; simpl. by rewrite app_nil_r.
Qed.

Lemma run_log (evs : list WorkflowEvent) (s : RunState) (done_ : bool) :
  log (run s evs) =
  (log s ++ log (run (mkState done_ (loggingQueue s) (error s) []) evs))%list.
Proof.
  revert s done_. induction evs as [| ev evs IH]; intros s done_; simpl.
  - by rewrite app_nil_r.
  - unfold run in *.
    rewrite (IH (handle s ev) true).
    rewrite (IH (handle (mkState done_ (loggingQueue s) (error s) []) ev) true).
    rewrite (handle_log s ev done_). simpl. by rewrite app_assoc.
Qed.

(** C5: while a schematic runs, the messages queued for the dry-run
    report reach the logger only when an [end] or [post-tasks-start]
    life-cycle event arrives, and only if no [error] event was reported
    since the last such boundary; after an [error] event the queued
    messages are dropped at the next boundary and never logged. *)
Theorem queue_flushed_at_clean_boundary (s : RunState)
    (phase rest : list WorkflowEvent) (kind : string) :
  within_phase phase -> is_boundary kind = true ->
  let s1 := run s phase in
  let s2 := handle s1 (LifeCycle kind) in
  infos (log s1) = infos (log s) /\
  loggingQueue s1 = (loggingQueue s ++ phase_queue phase)%list /\
  log s2 = (log s1 ++ if error s || phase_failed phase then []
                      else mkEntry Info <$> loggingQueue s1)%list /\
  loggingQueue s2 = [] /\ error s2 = false /\
  log (run s2 rest) = (log s2 ++ log (run initial rest))%list.
Proof.
  intros Hp Hb s1 s2.
  destruct (run_within phase s Hp) as (Hq & He & Hi).
  assert (Hs2 : s2 = mkState (nothingDone s1) [] false
                       (log s1 ++ if error s1 then []
                                  else mkEntry Info <$> loggingQueue s1)%list)
    by exact (boundary_flush kind s1 Hb).
  fold s1 in Hq, He, Hi.
  repeat split; try done.
  - rewrite Hs2. simpl. by rewrite He.
  - by rewrite Hs2.
  - by rewrite Hs2.
  - rewrite (run_log rest s2 true). by rewrite Hs2.
Qed.

(** *** The end of [workflow.execute] *)

Definition workflow_failed : string := "The Schematic workflow failed. See above.".

(** [err instanceof UnsuccessfulWorkflowExecution] *)
Definition is_unsuccessful (err : JsError) : bool :=
  bool_decide (err_class err = UnsuccessfulWorkflowExecution).

(** The [error] callback of the subscription; the promise resolves with
    the second component. *)
Definition on_error (debug : bool) (err : JsError) (s : RunState) : RunState * option Z :=
  let s' :=
    if is_unsuccessful err then logger Fatal workflow_failed s
    else if debug then
      logger Fatal ("An error occurred:" ++ newline ++ err_message err ++
                    newline ++ err_stack err) s
    else logger Fatal (err_message err) s in
  (s', Some 1%Z).

(** The [complete] callback; [showNothingDone] is the option as given. *)
Definition on_complete (showNothingDone : option bool) (dryRun : bool)
    (s : RunState) : RunState * option Z :=
  let show := negb (bool_decide (showNothingDone = Some false)) in
  let s1 := if nothingDone s && show then logger Info "Nothing to be done." s else s in
  let s2 := if dryRun
            then logger Warn (newline ++ "NOTE: The " ++ quoted "dryRun" ++
                              " flag means no changes were made.") s1
            else s1 in
  (s2, None).

(** C6: for every error that [workflow.execute] emits, [runSchematic]
    resolves with 1 and logs exactly one more entry, a fatal one: the
    workflow-failed message when the error is an
    [UnsuccessfulWorkflowExecution], and otherwise the error's own message
    (with its stack under [debug]), which differs from the workflow-failed
    message unless the error carries that very text. *)
Theorem error_resolves_with_one_fatal (debug : bool) (err : JsError) (s : RunState) :
  exists msg,
    on_error debug err s =
      (mkState (nothingDone s) (loggingQueue s) (error s)
               (log s ++ [mkEntry Fatal msg]), Some 1%Z) /\
    (err_class err = UnsuccessfulWorkflowExecution -> msg = workflow_failed) /\
    (err_class err <> UnsuccessfulWorkflowExecution ->
     msg = if debug
           then "An error occurred:" ++ newline ++ err_message err ++
                newline ++ err_stack err
           else err_message err) /\
    (err_class err <> UnsuccessfulWorkflowExecution ->
     debug = true \/ err_message err <> workflow_failed ->
     msg <> workflow_failed).
Proof.
  unfold on_error, is_unsuccessful. case_bool_decide as Hc.
  - exists workflow_failed. repeat split; done.
  - destruct debug; eexists; repeat split; try done.
    intros _ [Hd | Hm]; [discriminate | done].
Qed.

End Run.

(** *** Resolving a collection *)

Section Collections.

Variable Collection : Type.

(** [engine.createCollection]: a collection, [null], or a throw. *)
Variable createCollection : string -> Outcome (option Collection).

Definition unknown_collection (collectionName : string) : JsError :=
  mkError UnknownCollectionError None
          ("Invalid collection (" ++ collectionName ++ ").") "".

Definition getCollection (collectionName : string) : Outcome Collection :=
  collection ← createCollection collectionName;
  match collection with
  | None => Threw (unknown_collection collectionName)
  | Some c => Returned c
  end.

(** Only two outcomes: a collection comes back, or
    [UnknownCollectionError] is thrown. *)
Definition returns_or_unknown (collectionName : string) : Prop :=
  (exists c, getCollection collectionName = Returned c) \/
  (exists e, getCollection collectionName = Threw e /\
             err_class e = UnknownCollectionError).

(** C7 (amended): for every collection name, when the engine's
    [createCollection] returns, [getCollection] either returns the
    collection the engine produced or throws [UnknownCollectionError],
    never both, and it throws exactly when the engine returned [null];
    when [createCollection] itself throws, [getCollection] throws that
    same error. *)
Theorem getCollection_outcomes (collectionName : string) :
  (forall v, createCollection collectionName = Returned v ->
     (v = None ->
      getCollection collectionName = Threw (unknown_collection collectionName)) /\
     (forall c, v = Some c -> getCollection collectionName = Returned c) /\
     ((exists e, getCollection collectionName = Threw e /\
                 err_class e = UnknownCollectionError) <-> v = None)) /\
  (forall e, createCollection collectionName = Threw e ->
             getCollection collectionName = Threw e) /\
  ~ ((exists c, getCollection collectionName = Returned c) /\
     (exists e, getCollection collectionName = Threw e)).
Proof.
  unfold getCollection. split; [| split].
  - intros v H. rewrite H. simpl.
    destruct v as [c |]; (split; [| split; [| split]]); try done.
    + intros c' [= ->]. done.
    + intros (e & He & _). discriminate.
    + intros _. eauto.
  - intros e H. by rewrite H.
  - intros [[c Hc] [e He]]. rewrite Hc in He. discriminate.
Qed.

End Collections.

(** *** A run on concrete events *)

(** No colours, and [oneLine] left to the caller. *)
Definition uncoloured : Formatting :=
  {| cyan := id; green := id; yellow := id; blue := id; oneLine := id |}.

Definition clean_phase : list WorkflowEvent :=
  [LifeCycle "start"; Report (DeleteEvent "/old.ts"); Report (RenameEvent "a.ts" "/b.ts")].

Definition failed_phase : list WorkflowEvent :=
  [Report (DeleteEvent "/old.ts"); Report (ErrorEvent "/a.ts" "alreadyExist")].

Example clean_phase_logged :
  log (run uncoloured initial (clean_phase ++ [LifeCycle "end"])) =
  [mkEntry Info "DELETE old.ts"; mkEntry Info "RENAME a.ts => b.ts"].
Proof. reflexivity. Qed.

Example failed_phase_logged :
  log (run uncoloured initial (failed_phase ++ [LifeCycle "end"] ++
                               clean_phase ++ [LifeCycle "post-tasks-start"])) =
  [mkEntry Warn "ERROR! a.ts already exists.";
   mkEntry Info "DELETE old.ts"; mkEntry Info "RENAME a.ts => b.ts"].
Proof. reflexivity. Qed.

Lemma queue_flushed_at_clean_boundary_witness :
  infos (log (run uncoloured initial failed_phase)) = [] /\
  log (handle uncoloured (run uncoloured initial failed_phase) (LifeCycle "end")) =
  log (run uncoloured initial failed_phase).
Proof.
  assert (Hphase : within_phase failed_phase) by (repeat constructor).
  destruct (queue_flushed_at_clean_boundary uncoloured initial failed_phase []
              "end" Hphase eq_refl) as (Hquiet & _ & Hflush & _).
  split; [exact Hquiet |].
  rewrite Hflush. apply app_nil_r.
Defined.

Definition disk_full : JsError :=
  mkError PlainError (Some "ENOSPC") "no space left on device" "at write".

Lemma error_resolves_with_one_fatal_witness :
  on_error false disk_full initial =
  (mkState true [] false [mkEntry Fatal "no space left on device"], Some 1%Z).
Proof.
  destruct (error_resolves_with_one_fatal false disk_full initial)
    as (msg & Hrun & _ & Hown & _).
  rewrite Hrun, Hown; [reflexivity | discriminate].
Defined.

(** An engine that knows one collection and answers [null] otherwise. *)
Definition one_collection (name : string) : Outcome (option string) :=
  if String.eqb name "@schematics/angular" then Returned (Some name)
  else Returned None.

Lemma getCollection_outcomes_witness :
  getCollection string one_collection "@schematics/angular" =
    Returned "@schematics/angular" /\
  getCollection string one_collection "nowhere" =
    Threw (unknown_collection "nowhere").
Proof.
  destruct (getCollection_outcomes string one_collection "@schematics/angular")
    as (Hreturned & _).
  destruct (Hreturned (Some "@schematics/angular") eq_refl) as (_ & Hsome & _).
  destruct (getCollection_outcomes string one_collection "nowhere")
    as (Hreturned' & _).
  destruct (Hreturned' None eq_refl) as (Hnone & _).
  split; [by apply Hsome | by apply Hnone].
Defined.

(** An engine that finds the package and refuses it, as the engine host
    does for a package without schematics. *)
Definition unsupported : JsError :=
  mkError PlainError None "Package was found but does not support schematics." "".

Definition refusing_engine (name : string) : Outcome (option string) :=
  Threw unsupported.

(** C7, as stated, fails: when the engine throws, [getCollection] neither
    returns a collection nor throws [UnknownCollectionError]. *)
Lemma engine_error_is_a_third_outcome :
  ~ returns_or_unknown string refusing_engine "left-pad".
Proof.
  intros [(c & Hc) | (e & He & Hclass)]; [discriminate |].
  injection He as <-. discriminate.
Qed.

End SchematicCommand.

(** ** The tasks registered by ng-new *)

Module NgNew.

Local Open Scope list_scope.

Record TaskId := mkTaskId { id : nat }.

(** The [commit] option: an author record, a boolean, or left out. *)
Record CommitObject := {
  commit_name : option string;
  commit_email : option string;
  commit_message : option string;
}.

Inductive CommitOption :=
| CommitInfo (c : CommitObject)
| CommitFlag (b : bool)
| CommitUnset.

Definition empty_commit : CommitObject := Build_CommitObject None None None.

Inductive TaskConfiguration :=
| NodePackageInstallTask (workingDirectory : string) (packageManager : option string)
| NodePackageLinkTask (packageName workingDirectory : string)
| RepositoryInitializerTask (workingDirectory : string) (commit : option CommitObject).

Record Task := mkTask {
  task_id : TaskId;
  configuration : TaskConfiguration;
  dependencies : list TaskId;
}.

(** The tasks a [SchematicContext] has collected, in creation order. *)
Definition SchematicContext := list Task.

(** Modelled from the spec: [context.addTask] is not among the sources; as
    sections 3 and 9 describe it, a registration appends the task and
    returns an opaque id, the next index of the arena of tasks. *)
Definition addTask (task : TaskConfiguration) (deps : list TaskId)
    (context : SchematicContext) : TaskId * SchematicContext :=
  let tid := mkTaskId (length context) in
  (tid, (context ++ [mkTask tid task deps])%list).

Record Options := {
  directory : string;
  packageManager : option string;
  skipInstall : bool;
  linkCli : bool;
  skipGit : bool;
  commit : CommitOption;
}.

(** [typeof commit == 'object' ? commit : (!!commit ? {} : false)] *)
Definition commit_argument (c : CommitOption) : option CommitObject :=
  match c with
  | CommitInfo info => Some info
  | CommitFlag true => Some empty_commit
  | CommitFlag false | CommitUnset => None
  end.

(** The second rule of the chain that ng-new returns. *)
Definition register_tasks (options : Options) (context : SchematicContext) : SchematicContext :=
  let '(packageTask, context) :=
    if negb (skipInstall options) then
      let '(installed, context) :=
        addTask (NodePackageInstallTask (directory options) (packageManager options))
                [] context in
      if linkCli options then
        let '(linked, context) :=
          addTask (NodePackageLinkTask "@angular/cli" (directory options))
                  [installed] context in
        (Some linked, context)
      else (Some installed, context)
    else (None, context) in
  if negb (skipGit options) then
    snd (addTask (RepositoryInitializerTask (directory options)
                                            (commit_argument (commit options)))
                 (match packageTask with Some t => [t] | None => [] end)
                 context)
  else context.

Definition is_install (t : Task) : bool :=
  match configuration t with NodePackageInstallTask _ _ => true | _ => false end.

Definition is_link (t : Task) : bool :=
  match configuration t with NodePackageLinkTask _ _ => true | _ => false end.

Definition is_repository_init (t : Task) : bool :=
  match configuration t with RepositoryInitializerTask _ _ => true | _ => false end.

(** Task [a] lists task [b] among its dependencies. *)
Definition depends_on (context : SchematicContext) (a b : TaskId) : Prop :=
  exists t, t ∈ context /\ task_id t = a /\ b ∈ dependencies t.

(** Ids are arena indices and every dependency was registered before the
    task that names it. *)
Definition well_formed (context : SchematicContext) : Prop :=
  forall i t, context !! i = Some t ->
    id (task_id t) = i /\ Forall (fun d => id d < i) (dependencies t).

(** In the tasks [added] by one execution, every dependency is the id of a
    task the same execution added earlier. *)
Definition backward_only (added : list Task) : Prop :=
  forall i t d, added !! i = Some t -> d ∈ dependencies t ->
    exists j t0, j < i /\ added !! j = Some t0 /\ task_id t0 = d.

Lemma well_formed_nil : well_formed [].
Proof. intros i t H. by destruct i. Qed.

Lemma well_formed_snoc (context : SchematicContext) (task : TaskConfiguration)
    (deps : list TaskId) :
  well_formed context ->
  Forall (fun d => id d < length context) deps ->
  well_formed (context ++ [mkTask (mkTaskId (length context)) task deps]).
Proof.
  intros Hwf Hdeps i t Hi.
  apply lookup_app_Some in Hi as [Hi | [Hlen Hi]]; [by apply Hwf |].
  apply list_lookup_singleton_Some in Hi as [Hz <-]. simpl.
  assert (i = length context) as -> by lia. done.
Qed.

Lemma depends_on_earlier (context : SchematicContext) (a b : TaskId) :
  well_formed context -> depends_on context a b -> id b < id a.
Proof.
  intros Hwf (t & Hin & <- & Hdep).
  apply list_elem_of_lookup in Hin as [i Hi].
  destruct (Hwf i t Hi) as [-> Hall].
  rewrite Forall_forall in Hall. by apply Hall.
Qed.

Lemma well_formed_acyclic (context : SchematicContext) (a : TaskId) :
  well_formed context -> ~ tc (depends_on context) a a.
Proof.
  intros Hwf Hcycle.
  assert (Hlt : forall x y, tc (depends_on context) x y -> id y < id x).
  { induction 1 as [x y H | x y z H _ IH].
    - by eapply depends_on_earlier.
    - apply (depends_on_earlier _ _ _ Hwf) in H. lia. }
  specialize (Hlt a a Hcycle). lia.
Qed.

Lemma register_tasks_well_formed (options : Options) (context : SchematicContext) :
  well_formed context -> well_formed (register_tasks options context).
Proof.
  intros Hwf. unfold register_tasks, addTask.
  destruct (skipInstall options), (linkCli options), (skipGit options); simpl;
    repeat (apply well_formed_snoc; [| repeat constructor; simpl;
                                       rewrite ?length_app; simpl; lia]);
    done.
Qed.

Local Ltac by_position i H :=
  repeat (destruct i as [| i]; simpl in H; try discriminate H);
  try (injection H as <-); simpl in *.

Local Ltac earlier_task :=
  first [ by (exists 0; eexists; split; [lia | split; [reflexivity |]])
        | by (exists 1; eexists; split; [lia | split; [reflexivity |]]) ].

(** C8: in every execution of the task-registration step of ng-new, each
    dependency list handed to [addTask] holds only ids that earlier
    [addTask] calls of the same execution returned: the install task
    depends on nothing, the link task on the install task registered
    before it, and the repository initializer on the package task
    registered before it when there is one and on nothing otherwise; so
    the registered tasks have no forward reference and no dependency
    cycle. *)
Theorem tasks_depend_on_earlier_tasks (options : Options) (context : SchematicContext) :
  exists added,
    register_tasks options context = (context ++ added)%list /\
    backward_only added /\
    (forall i t, added !! i = Some t -> is_install t = true ->
       dependencies t = []) /\
    (forall i t, added !! i = Some t -> is_link t = true ->
       exists j t0, j < i /\ added !! j = Some t0 /\ is_install t0 = true /\
                    dependencies t = [task_id t0]) /\
    (forall i t, added !! i = Some t -> is_repository_init t = true ->
       if skipInstall options then dependencies t = []
       else exists j t0, j < i /\ added !! j = Some t0 /\
                         (if linkCli options then is_link t0 else is_install t0) = true /\
                         dependencies t = [task_id t0]) /\
    (well_formed context ->
       well_formed (context ++ added) /\
       forall a, ~ tc (depends_on (context ++ added)) a a).
Proof.
  pose proof (register_tasks_well_formed options context) as Hwf.
  unfold register_tasks, addTask in *.
  destruct (skipInstall options) eqn:Hinstall, (linkCli options) eqn:Hlink,
    (skipGit options) eqn:Hgit; simpl in *; rewrite <- ?app_assoc in *; simpl in *;
    eexists; (split; [first [reflexivity | symmetry; apply app_nil_r] |]);
    (split; [| split; [| split; [| split]]]).
  all: match goal with
       | |- backward_only _ =>
           intros i t d Hi Hd; by_position i Hi;
           first [ by apply not_elem_of_nil in Hd
                 | apply list_elem_of_singleton in Hd as ->; earlier_task ]
       | |- well_formed _ -> _ =>
           intros H; rewrite ?app_nil_r; split;
           [by apply Hwf | intros a; apply well_formed_acyclic; by apply Hwf]
       | |- _ =>
           intros i t Hi Hk; by_position i Hi; try discriminate Hk;
           first [ reflexivity | earlier_task ]
       end.
Qed.

(** *** A run with every task enabled *)

Definition everything : Options :=
  {| directory := "app"; packageManager := Some "npm"; skipInstall := false;
     linkCli := true; skipGit := false; commit := CommitFlag true |}.

Example everything_registered :
  register_tasks everything [] =
  [mkTask (mkTaskId 0) (NodePackageInstallTask "app" (Some "npm")) [];
   mkTask (mkTaskId 1) (NodePackageLinkTask "@angular/cli" "app") [mkTaskId 0];
   mkTask (mkTaskId 2) (RepositoryInitializerTask "app" (Some empty_commit))
          [mkTaskId 1]].
Proof. reflexivity. Qed.

Lemma tasks_depend_on_earlier_tasks_witness :
  well_formed (register_tasks everything []) /\
  ~ tc (depends_on (register_tasks everything [])) (mkTaskId 2) (mkTaskId 2).
Proof.
  destruct (tasks_depend_on_earlier_tasks everything [])
    as (added & Hadded & _ & _ & _ & _ & Hwf).
  rewrite Hadded. destruct (Hwf well_formed_nil) as [Hok Hacyclic].
  split; [exact Hok | apply Hacyclic].
Defined.

End NgNew.

(** ** The web-worker schematic *)

Module WebWorker.

Import VirtualTree.

Record BrowserBuilderOptions := {
  webWorkerTsConfig : option string;
  tsConfig : option string;
}.

Record TargetDefinition := {
  builder : string;
  target_options : option BrowserBuilderOptions;
}.

Record ProjectDefinition := {
  root : option string;
  extensions : gmap string JsValue;
  targets : gmap string TargetDefinition;
}.

Record WorkspaceDefinition := {
  projects : gmap string ProjectDefinition;
}.

Record WebWorkerOptions := {
  project : option string;
  target : option string;
  path : option string;
  name : string;
  snippet : bool;
}.

(** A rule works on the host tree in place: the tree it leaves, and how
    it ended. *)
Definition Rule := Tree -> Outcome unit * Tree.

Definition noop : Rule := fun host => (Returned (), host).

(** [chain]: the rules in order, up to the first that fails. *)
Fixpoint chain (rules : list Rule) : Rule :=
  fun host =>
    match rules with
    | [] => (Returned (), host)
    | rule :: rest =>
        match rule host with
        | (Returned _, host') => chain rest host'
        | (Threw e, host') => (Threw e, host')
        end
    end.

Definition schematics_exception (msg : string) : JsError :=
  mkError SchematicsException None msg "".

Definition plain_error (msg : string) : JsError :=
  mkError PlainError None msg "".

(** [!s] for an optional string. *)
Definition given (s : option string) : option string :=
  match s with
  | Some v => if String.eqb v "" then None else Some v
  | None => None
  end.

Definition is_application (p : ProjectDefinition) : bool :=
  match extensions p !! "projectType" with
  | Some (JStr kind) => String.eqb kind "application"
  | _ => false
  end.

Section Schematic.

(** The helpers the schematic imports from the utility directory and the
    rules it chains once the options are accepted. *)
Variable getWorkspace : Tree -> Outcome WorkspaceDefinition.
Variable buildDefaultPath : ProjectDefinition -> string.
Variable parseName : string -> string -> string * string.
(** [join(normalize(root), file)] *)
Variable join : string -> string -> string.
Variable addConfig : WebWorkerOptions -> string -> option string -> Rule.
Variable updateWorkspace : WorkspaceDefinition -> Rule.
Variable addSnippet : WebWorkerOptions -> Rule.
Variable mergeWorkerFiles : WebWorkerOptions -> string -> Rule.

Definition with_worker_config (workspace : WorkspaceDefinition)
    (projectName targetName : string) (p : ProjectDefinition)
    (t : TargetDefinition) (o : BrowserBuilderOptions) (config : string)
    : WorkspaceDefinition :=
  let o' := {| webWorkerTsConfig := Some config; tsConfig := tsConfig o |} in
  let t' := {| builder := builder t; target_options := Some o' |} in
  let p' := {| root := root p; extensions := extensions p;
               targets := <[targetName := t']> (targets p) |} in
  {| projects := <[projectName := p']> (projects workspace) |}.

(** The function the schematic exports, up to the rule it returns. *)
Definition web_worker (options : WebWorkerOptions) (host : Tree) : Outcome Rule :=
  workspace ← getWorkspace host;
  match given (project options) with
  | None => Threw (schematics_exception ("Option " ++ quoted "project" ++ " is required."))
  | Some projectName =>
  match given (target options) with
  | None => Threw (schematics_exception ("Option " ++ quoted "target" ++ " is required."))
  | Some targetName =>
  match projects workspace !! projectName with
  | None => Threw (schematics_exception ("Invalid project name (" ++ projectName ++ ")"))
  | Some p =>
  if negb (is_application p) then
    Threw (schematics_exception
             ("Web Worker requires a project type of " ++ quoted "application" ++ "."))
  else
  match targets p !! targetName with
  | None => Threw (plain_error "Target is not defined for this project.")
  | Some projectTarget =>
      let projectTargetOptions :=
        default {| webWorkerTsConfig := None; tsConfig := None |}
                (target_options projectTarget) in
      let path0 := default (buildDefaultPath p) (path options) in
      let '(parsedName, parsedPath) := parseName path0 (name options) in
      let options' := {| project := project options; target := target options;
                         path := Some parsedPath; name := parsedName;
                         snippet := snippet options |} in
      let root' := default "" (given (root p)) in
      let needWebWorkerConfig :=
        negb (bool_decide (is_Some (given (webWorkerTsConfig projectTargetOptions)))) in
      let workspace' :=
        match target_options projectTarget with
        | Some o =>
            if needWebWorkerConfig
            then with_worker_config workspace projectName targetName p projectTarget o
                                    (join root' "tsconfig.worker.json")
            else workspace
        | None => workspace
        end in
      Returned (chain [
        if needWebWorkerConfig
        then addConfig options' root' (tsConfig projectTargetOptions) else noop;
        if needWebWorkerConfig then updateWorkspace workspace' else noop;
        if snippet options then addSnippet options' else noop;
        mergeWorkerFiles options' parsedPath ])
  end end end end.

(** The engine calls the exported function and then the rule it got. *)
Definition run_web_worker (options : WebWorkerOptions) (host : Tree)
    : Outcome unit * Tree :=
  match web_worker options host with
  | Returned rule => rule host
  | Threw e => (Threw e, host)
  end.

(** The options or the workspace rule the schematic out. *)
Definition rejected (options : WebWorkerOptions) (workspace : WorkspaceDefinition) : Prop :=
  given (project options) = None \/
  given (target options) = None \/
  exists projectName, given (project options) = Some projectName /\
    match projects workspace !! projectName with
    | None => True
    | Some p => is_application p = false
    end.

(** The project is an application but has no target of the given name. *)
Definition target_undefined (options : WebWorkerOptions)
    (workspace : WorkspaceDefinition) : Prop :=
  exists projectName targetName p,
    given (project options) = Some projectName /\
    given (target options) = Some targetName /\
    projects workspace !! projectName = Some p /\
    is_application p = true /\
    targets p !! targetName = None.

Lemma web_worker_throw_keeps_tree (options : WebWorkerOptions) (host : Tree)
    (e : JsError) :
  web_worker options host = Threw e -> run_web_worker options host = (Threw e, host).
Proof. intros H. unfold run_web_worker. by rewrite H. Qed.

Lemma workspace_unread_keeps_tree (options : WebWorkerOptions) (host : Tree)
    (e : JsError) :
  getWorkspace host = Threw e -> run_web_worker options host = (Threw e, host).
Proof.
  intros H. apply web_worker_throw_keeps_tree. unfold web_worker. by rewrite H.
Qed.

(** C10: when the options lack [project] or [target], or the named project
    is not in the workspace or is not an application, the web-worker
    schematic throws a [SchematicsException], and when the project has no
    target of the given name it throws an [Error]; in each case it throws
    before any action is staged, so the Tree is the one it was given. *)
Theorem invalid_options_leave_tree_unchanged (options : WebWorkerOptions)
    (host : Tree) (workspace : WorkspaceDefinition) :
  getWorkspace host = Returned workspace ->
  (rejected options workspace ->
   exists msg,
     run_web_worker options host = (Threw (schematics_exception msg), host)) /\
  (target_undefined options workspace ->
   run_web_worker options host =
     (Threw (plain_error "Target is not defined for this project."), host)).
Proof.
  intros Hws. split.
  - intros Hrej. unfold run_web_worker, web_worker. rewrite Hws, bind_returned.
    destruct (given (project options)) as [projectName |] eqn:Hp; [| eauto].
    destruct (given (target options)) as [targetName |] eqn:Ht; [| eauto].
    destruct Hrej as [Hrej | [Hrej | (pn & Hpn & Hrej)]]; [congruence | congruence |].
    assert (pn = projectName) as -> by congruence.
    destruct (projects workspace !! projectName) as [p |]; [| eauto].
    rewrite Hrej. simpl. eauto.
  - intros (projectName & targetName & p & Hp & Ht & Hfound & Happ & Hmissing).
    unfold run_web_worker, web_worker. rewrite Hws, bind_returned.
    by rewrite Hp, Ht, Hfound, Happ, Hmissing.
Qed.

End Schematic.

(** *** A workspace with one application *)

Definition app_project : ProjectDefinition :=
  {| root := Some "";
     extensions := {[ "projectType" := JStr "application" ]};
     targets := {[ "build" := {| builder := "browser"; target_options := None |} ]} |}.

Definition one_app : WorkspaceDefinition :=
  {| projects := {[ "app" := app_project ]} |}.

(** A stand-in for the template merge: it creates the worker file. *)
Definition create_worker (options : WebWorkerOptions) (dir : string) : Rule :=
  fun host =>
    match create (dir ++ "/" ++ name options ++ ".worker.ts") "addEventListener" host with
    | Returned host' => (Returned (), host')
    | Threw e => (Threw e, host)
    end.

Definition run_on_one_app : WebWorkerOptions -> Tree -> Outcome unit * Tree :=
  run_web_worker (fun _ => Returned one_app) (fun _ => "src/app")
                 (fun dir n => (n, dir)) (fun a b => a ++ "/" ++ b)
                 (fun _ _ _ => noop) (fun _ => noop) (fun _ => noop) create_worker.

Definition worker_options (projectName targetName : option string) : WebWorkerOptions :=
  {| project := projectName; target := targetName; path := None;
     name := "heavy"; snippet := false |}.

Example accepted_options_stage_a_file :
  actions (snd (run_on_one_app (worker_options (Some "app") (Some "build"))
                               (seeded ∅))) =
  [Create "src/app/heavy.worker.ts" "addEventListener"].
Proof. reflexivity. Qed.

Lemma lib_rejected : rejected (worker_options (Some "lib") (Some "build")) one_app.
Proof. right. right. exists "lib". by split. Qed.

Lemma serve_undefined :
  target_undefined (worker_options (Some "app") (Some "serve")) one_app.
Proof. exists "app", "serve", app_project. repeat split; done. Qed.

Lemma invalid_options_leave_tree_unchanged_witness :
  (exists msg,
     run_on_one_app (worker_options (Some "lib") (Some "build")) (seeded ∅) =
     (Threw (schematics_exception msg), seeded ∅)) /\
  run_on_one_app (worker_options (Some "app") (Some "serve")) (seeded ∅) =
  (Threw (plain_error "Target is not defined for this project."), seeded ∅).
Proof.
  split.
  - apply (invalid_options_leave_tree_unchanged (fun _ => Returned one_app)
             (fun _ => "src/app") (fun dir n => (n, dir)) (fun a b => a ++ "/" ++ b)
             (fun _ _ _ => noop) (fun _ => noop) (fun _ => noop) create_worker
             (worker_options (Some "lib") (Some "build")) (seeded ∅) one_app eq_refl).
    exact lib_rejected.
  - apply (invalid_options_leave_tree_unchanged (fun _ => Returned one_app)
             (fun _ => "src/app") (fun dir n => (n, dir)) (fun a b => a ++ "/" ++ b)
             (fun _ _ _ => noop) (fun _ => noop) (fun _ => noop) create_worker
             (worker_options (Some "app") (Some "serve")) (seeded ∅) one_app eq_refl).
    exact serve_undefined.
Defined.

End WebWorker.

(** ** The options a schematic run starts from *)

Module RunSchematic.

Import SchematicCommand.

(** The fields of a command [Option] that the command reads;
    [userAnalytics] is the number of an analytics dimension. *)
Record Option := {
  name : string;
  format : option string;
  hidden : option bool;
  userAnalytics : option nat;
}.

(** [acc[key] = value] on a plain object whose values are strings: the
    key becomes an own key of the object, except for ['__proto__'], where
    the assignment goes to the setter every object inherits, which
    ignores a string and adds no key. *)
Definition assign (acc : gmap string string) (key value : string)
    : gmap string string :=
  if String.eqb key "__proto__" then acc else <[key := value]> acc.

(** [options.filter(o => o.format === 'path').map(o => o.name)
      .reduce((acc, curr) => { acc[curr] = workingDir; return acc; }, {})] *)
Definition setPathOptions (options : list Option) (workingDir : string)
    : gmap string string :=
  if String.eqb workingDir "" then ∅
  else foldl (fun acc curr => assign acc curr workingDir) ∅
             (name <$> filter (fun o => format o = Some "path") options).

(** [{ ...defaults, ...{ ...pathOptions, ...args }, ...additionalOptions }];
    [o] is the parsed option list, [null] for a schematic without schema. *)
Definition schematic_input (o : option (list Option)) (workingDir : string)
    (defaults args : gmap string JsValue)
    (additionalOptions : option (gmap string JsValue)) : gmap string JsValue :=
  let pathOptions :=
    match o with
    | Some options => setPathOptions options workingDir
    | None => ∅
    end in
  let input := args ∪ (JStr <$> pathOptions) in
  default ∅ additionalOptions ∪ (input ∪ defaults).

(** [additional.split(/=/)[0]] *)
Definition option_name (additional : string) : string :=
  match split_on "=" additional with
  | piece :: _ => piece
  | [] => ""
  end.

Definition unknown_option (additional : string) : string :=
  "Unknown option: '" ++ option_name additional ++ "'".

(** The check of the leftover arguments [args['--']]: the state and exit
    code when the run ends there, nothing when it goes on. *)
Definition reject_unknown (leftover : option (list string))
    (allowAdditionalProperties : bool) (s : RunState) : option (RunState * Z) :=
  match leftover with
  | Some additionals =>
      if allowAdditionalProperties then None
      else Some (foldl (fun acc additional =>
                          logger Fatal (unknown_option additional) acc)
                       s additionals, 1%Z)
  | None => None
  end.

Fixpoint has_char (c : ascii) (s : string) : bool :=
  match s with
  | EmptyString => false
  | String a rest => Ascii.eqb a c || has_char c rest
  end.

Definition is_report (ev : WorkflowEvent) : bool :=
  match ev with
  | Report _ => true
  | LifeCycle _ => false
  end.

Lemma foldl_assign_lookup (v : string) (keys : list string)
    (m : gmap string string) (k : string) :
  foldl (fun acc curr => assign acc curr v) m keys !! k =
  if decide (k ∈ keys /\ k <> "__proto__") then Some v else m !! k.
Proof.
  revert m. induction keys as [| key keys IH]; intros m; cbn [foldl].
  - case_decide as H; [| done]. destruct H as [H _]. by apply not_elem_of_nil in H.
  - rewrite IH. unfold assign.
    destruct (decide (k ∈ keys /\ k <> "__proto__")) as [[Hin Hk] | Hout].
    + rewrite decide_True; [done |]. split; [by right | done].
    + destruct (String.eqb_spec key "__proto__") as [-> | Hkey].
      * case_decide as H; [| done]. destruct H as [H Hk]. destruct Hout.
        apply elem_of_cons in H as [-> | H]; done.
      * destruct (decide (key = k)) as [-> | Hne].
        -- rewrite lookup_insert_eq, decide_True; [done |]. split; [left | done].
        -- rewrite lookup_insert_ne by done. rewrite decide_False; [done |].
           intros [H Hk]. destruct Hout.
           apply elem_of_cons in H as [-> | H]; done.
Qed.

Lemma path_key_bound (options : list Option) (workingDir : string) (o : Option) :
  workingDir <> "" -> o ∈ options -> format o = Some "path" ->
  name o <> "__proto__" ->
  setPathOptions options workingDir !! name o = Some workingDir.
Proof.
  intros Hwd Ho Hf Hname. unfold setPathOptions.
  apply String.eqb_neq in Hwd. rewrite Hwd, foldl_assign_lookup.
  rewrite decide_True; [done |]. split; [| done].
  apply list_elem_of_fmap. exists o. split; [done |]. by apply list_elem_of_filter.
Qed.

(** X1: the object [setPathOptions] builds has exactly the names of the
    options of format [path] as keys, the name ['__proto__'] excepted,
    each bound to the working directory, and no key at all when the
    working directory is empty. *)
Theorem setPathOptions_lookup (options : list Option) (workingDir k v : string) :
  setPathOptions options workingDir !! k = Some v <->
  workingDir <> "" /\ v = workingDir /\ k <> "__proto__" /\
  exists o, o ∈ options /\ format o = Some "path" /\ name o = k.
Proof.
  unfold setPathOptions. destruct (String.eqb_spec workingDir "") as [-> | Hwd].
  - rewrite lookup_empty. split; [done | by intros [? _]].
  - rewrite foldl_assign_lookup, lookup_empty.
    destruct (decide (k ∈ name <$> filter (fun o => format o = Some "path") options
                      /\ k <> "__proto__"))
      as [[Hin Hk] | Hout]; split.
    + intros [= <-]. repeat split; [done | done |].
      apply list_elem_of_fmap in Hin as (o & -> & Ho).
      apply list_elem_of_filter in Ho as [Hf Ho]. eauto.
    + by intros (_ & -> & _).
    + done.
    + intros (_ & _ & Hk & o & Ho & Hf & <-). destruct Hout. split; [| done].
      apply list_elem_of_fmap. exists o. split; [done |].
      by apply list_elem_of_filter.
Qed.

(** X2: in the input handed to the workflow, an option of format [path]
    whose name is not ['__proto__'] is bound to what [additionalOptions]
    gives it, else to what the command line gives it, else to the working
    directory; the workspace defaults never reach it. *)
Theorem path_option_ignores_workspace_default (options : list Option)
    (workingDir : string) (defaults args : gmap string JsValue)
    (additionalOptions : option (gmap string JsValue)) (o : Option) :
  workingDir <> "" -> o ∈ options -> format o = Some "path" ->
  name o <> "__proto__" ->
  schematic_input (Some options) workingDir defaults args additionalOptions
    !! name o =
  match default ∅ additionalOptions !! name o with
  | Some v => Some v
  | None => match args !! name o with
            | Some v => Some v
            | None => Some (JStr workingDir)
            end
  end.
Proof.
  intros Hwd Ho Hf Hname. unfold schematic_input.
  rewrite !lookup_union, lookup_fmap, (path_key_bound _ _ _ Hwd Ho Hf Hname). simpl.
  destruct (default ∅ additionalOptions !! name o), (args !! name o),
    (defaults !! name o); done.
Qed.

Lemma option_name_prefix (additional : string) :
  has_char "=" (option_name additional) = false /\
  (exists rest, additional = option_name additional ++ rest) /\
  (has_char "=" additional = false -> option_name additional = additional).
Proof.
  unfold option_name. induction additional as [| a s (IH1 & (rest & IH2) & IH3)].
  - simpl. split; [done | split; [by exists "" | done]].
  - simpl. destruct (Ascii.eqb a "=") eqn:Ha; simpl.
    + split; [done | split; [by exists (String a s) | done]].
    + destruct (split_on "=" s) as [| piece pieces]; simpl in *; rewrite Ha.
      * split; [done | split; [exists rest; by rewrite IH2 at 1 |]].
        intros Hs. f_equal. by apply IH3.
      * split; [done | split; [exists rest; by rewrite IH2 at 1 |]].
        intros Hs. f_equal. by apply IH3.
Qed.

Lemma fatal_each (additionals : list string) (s : RunState) :
  foldl (fun acc additional => logger Fatal (unknown_option additional) acc)
        s additionals =
  mkState (nothingDone s) (loggingQueue s) (error s)
          (log s ++ (mkEntry Fatal <$> (unknown_option <$> additionals)))%list.
Proof.
  revert s. induction additionals as [| a rest IH]; intros s; simpl.
  - rewrite app_nil_r. by destruct s.
  - rewrite IH. simpl. by rewrite <- app_assoc.
Qed.

(** X3: when the command line leaves arguments over and the schema does not
    allow additional properties, the run ends with exit code 1 after one
    fatal entry per leftover argument, in order, each naming the argument
    up to its first [=]; an empty list of leftovers ends the run without
    any entry. *)
Theorem leftover_arguments_end_the_run (additionals : list string) (s : RunState) :
  reject_unknown (Some additionals) false s =
    Some (mkState (nothingDone s) (loggingQueue s) (error s)
                  (log s ++ (mkEntry Fatal <$> (unknown_option <$> additionals)))%list,
          1%Z) /\
  Forall (fun additional =>
            has_char "=" (option_name additional) = false /\
            exists rest, additional = option_name additional ++ rest)
         additionals.
Proof.
  split.
  - unfold reject_unknown. by rewrite fatal_each.
  - apply Forall_forall. intros a _.
    destruct (option_name_prefix a) as (H1 & H2 & _). done.
Qed.

Lemma handle_nothingDone (fmt : Formatting) (ev : WorkflowEvent) (s : RunState) :
  nothingDone (handle fmt s ev) = nothingDone s && negb (is_report ev).
Proof.
  destruct ev as [event | kind]; simpl.
  - rewrite andb_false_r. by destruct event.
  - rewrite andb_true_r. unfold on_lifeCycle.
    destruct (is_boundary kind); [| done]. simpl.
    destruct (error s); [done |]. by rewrite flush_log.
Qed.

Lemma run_nothingDone (fmt : Formatting) (evs : list WorkflowEvent) (s : RunState) :
  nothingDone (run fmt s evs) =
  nothingDone s && forallb (fun ev => negb (is_report ev)) evs.
Proof.
  unfold run. revert s. induction evs as [| ev evs IH]; intros s; cbn [foldl forallb].
  - by rewrite andb_true_r.
  - by rewrite IH, handle_nothingDone, andb_assoc.
Qed.

(** X4: when the workflow completes, the promise resolves with [undefined];
    [Nothing to be done.] is logged exactly when no dry-run event was
    reported during the run and [showNothingDone] is not [false], and the
    dry-run note follows exactly when [dryRun] is set. *)
Theorem completion_reports_nothing_done (fmt : Formatting)
    (evs : list WorkflowEvent) (showNothingDone : option bool) (dryRun : bool) :
  let s := run fmt initial evs in
  let quiet := forallb (fun ev => negb (is_report ev)) evs in
  exists s',
    on_complete showNothingDone dryRun s = (s', None) /\
    log s' =
      (log s ++
       (if quiet && negb (bool_decide (showNothingDone = Some false))
        then [mkEntry Info "Nothing to be done."] else []) ++
       (if dryRun
        then [mkEntry Warn (newline ++ "NOTE: The " ++ quoted "dryRun" ++
                            " flag means no changes were made.")]
        else []))%list.
Proof.
  intros s quiet. unfold on_complete.
  assert (Hq : nothingDone s = quiet) by apply (run_nothingDone fmt evs initial).
  rewrite Hq. eexists. split; [reflexivity |].
  destruct (quiet && _), dryRun; simpl; by rewrite <- ?app_assoc, ?app_nil_r.
Qed.

Lemma handle_keeps_order (fmt : Formatting) (s : RunState) (ev : WorkflowEvent) :
  (infos (log (handle fmt s ev)) ++ loggingQueue (handle fmt s ev))%list
  `sublist_of`
  (infos (log s) ++ loggingQueue s ++ option_list (queued fmt ev))%list.
Proof.
  destruct (crosses_boundary ev) eqn:Hb.
  - destruct ev as [event | kind]; [discriminate |]. simpl in Hb.
    simpl. rewrite (boundary_flush kind s Hb). simpl.
    rewrite infos_app, !app_nil_r.
    destruct (error s).
    + rewrite app_nil_r. by apply sublist_inserts_r.
    + by rewrite infos_info.
  - destruct (handle_within fmt s ev Hb) as (Hq & _ & Hi & _).
    by rewrite Hq, Hi.
Qed.

Lemma run_keeps_order (fmt : Formatting) (evs : list WorkflowEvent) (s : RunState) :
  (infos (log (run fmt s evs)) ++ loggingQueue (run fmt s evs))%list
  `sublist_of`
  (infos (log s) ++ loggingQueue s ++ phase_queue fmt evs)%list.
Proof.
  revert s. induction evs as [| ev evs IH]; intros s.
  - simpl. by rewrite app_nil_r.
  - change (run fmt s (ev :: evs)) with (run fmt (handle fmt s ev) evs).
    etrans; [apply IH |].
    assert (Hq : phase_queue fmt (ev :: evs)
                 = (option_list (queued fmt ev) ++ phase_queue fmt evs)%list).
    { unfold phase_queue. simpl. by destruct (queued fmt ev). }
    rewrite Hq, !app_assoc. apply sublist_app; [| done].
    rewrite <- app_assoc. apply handle_keeps_order.
Qed.

(** X5: the info entries of a run are messages of create, update, delete
    and rename events reported during that run: each reported event is
    logged at most once, in the order of the events, and nothing else is
    logged at info level until the workflow ends. *)
Theorem infos_are_reported_events (fmt : Formatting) (evs : list WorkflowEvent) :
  infos (log (run fmt initial evs)) `sublist_of` phase_queue fmt evs.
Proof.
  etrans; [| apply (run_keeps_order fmt evs initial)].
  by apply sublist_inserts_r.
Qed.

(** *** One schematic with a path option *)

Definition path_option : Option :=
  {| name := "path"; format := Some "path"; hidden := None; userAnalytics := None |}.

Definition generate_options : list Option :=
  [ path_option;
    {| name := "name"; format := None; hidden := None; userAnalytics := None |} ].

Example proto_not_bound :
  setPathOptions
    [ {| name := "__proto__"; format := Some "path"; hidden := None;
         userAnalytics := None |} ] "src/app" = ∅.
Proof. reflexivity. Qed.

Example path_defaults :
  setPathOptions generate_options "src/app" = {[ "path" := "src/app" ]}.
Proof. reflexivity. Qed.

Lemma path_option_ignores_workspace_default_witness :
  schematic_input (Some generate_options) "src/app"
                  {[ "path" := JStr "projects/lib" ]} ∅ None !! "path" =
  Some (JStr "src/app").
Proof.
  assert (Hwd : "src/app" <> "") by discriminate.
  assert (Hin : path_option ∈ generate_options) by left.
  assert (Hname : name path_option <> "__proto__") by discriminate.
  exact (path_option_ignores_workspace_default generate_options "src/app"
           {[ "path" := JStr "projects/lib" ]} ∅ None path_option Hwd Hin eq_refl
           Hname).
Defined.

Example leftover_logged :
  reject_unknown (Some ["--colour=red"; "--fast"]) false initial =
  Some (mkState true [] false
                [mkEntry Fatal "Unknown option: '--colour'";
                 mkEntry Fatal "Unknown option: '--fast'"], 1%Z).
Proof. reflexivity. Qed.

End RunSchematic.

(** ** The projects a directory belongs to *)

Module ProjectLookup.

(** A project root as the lookup pairs it with the project's name. *)
Definition Located := (string * string)%type.

Definition depth (t : Located) : nat := String.length (fst t).

(** [sort((a, b) => b[0].length - a[0].length)]: the sort is stable, so
    the outcome is the one of any stable sort; here by insertion from
    the right, each pair going before the first pair that is not longer. *)
Fixpoint insert_deeper (x : Located) (sorted : list Located) : list Located :=
  match sorted with
  | [] => [x]
  | y :: rest =>
      if (depth x <? depth y)%nat then y :: insert_deeper x rest
      else x :: y :: rest
  end.

Definition deepest_first (l : list Located) : list Located :=
  foldr insert_deeper [] l.

Lemma elem_of_insert_deeper (x y : Located) (l : list Located) :
  y ∈ insert_deeper x l <-> y = x \/ y ∈ l.
Proof.
  induction l as [| z l IH]; simpl.
  - rewrite list_elem_of_singleton. split; [by left | intros [? | H]; [done |]].
    by apply not_elem_of_nil in H.
  - destruct (depth x <? depth z)%nat; rewrite !elem_of_cons, ?IH; tauto.
Qed.

Lemma elem_of_deepest_first (y : Located) (l : list Located) :
  y ∈ deepest_first l <-> y ∈ l.
Proof.
  induction l as [| x l IH]; simpl; [done |].
  rewrite elem_of_insert_deeper, elem_of_cons, IH. done.
Qed.

Lemma insert_deeper_perm (x : Located) (l : list Located) :
  insert_deeper x l ≡ₚ x :: l.
Proof.
  induction l as [| y l IH]; simpl; [done |].
  destruct (depth x <? depth y)%nat; [| done].
  rewrite IH. apply Permutation_swap.
Qed.

Lemma deepest_first_perm (l : list Located) : deepest_first l ≡ₚ l.
Proof.
  induction l as [| x l IH]; simpl; [done |].
  by rewrite insert_deeper_perm, IH.
Qed.

(** The head of the sorted list is at least as deep as every element. *)
Definition head_deepest (l : list Located) : Prop :=
  forall first rest, l = first :: rest -> forall z, z ∈ l -> depth z <= depth first.

Lemma insert_deeper_head (x : Located) (l : list Located) :
  head_deepest l -> head_deepest (insert_deeper x l).
Proof.
  intros Hl first rest Heq z Hz. apply elem_of_insert_deeper in Hz.
  destruct l as [| y l]; simpl in Heq.
  - injection Heq as <- <-. destruct Hz as [-> | Hz]; [done |].
    by apply not_elem_of_nil in Hz.
  - pose proof (Hl y l eq_refl) as Hy.
    destruct (depth x <? depth y)%nat eqn:Hlt.
    + apply Nat.ltb_lt in Hlt. injection Heq as <- <-.
      destruct Hz as [-> | Hz]; [lia | by apply Hy].
    + apply Nat.ltb_ge in Hlt. injection Heq as <- <-.
      destruct Hz as [-> | Hz]; [done |]. specialize (Hy z Hz). lia.
Qed.

Lemma deepest_first_head (l : list Located) : head_deepest (deepest_first l).
Proof.
  induction l as [| x l IH]; simpl.
  - intros first rest Heq. discriminate.
  - by apply insert_deeper_head.
Qed.

Section Paths.

(** [path.resolve], [path.relative] and [path.isAbsolute] of Node. *)
Variable resolve : string -> string -> string.
Variable relative : string -> string -> string.
Variable isAbsolute : string -> bool.

(** The projects of a workspace, in the order of its [Map]: name and
    [project.root]. *)
Variable projects : list (string * string).
Variable path : string.
Variable root : string.

Definition isInside (base potential : string) : bool :=
  let absoluteBase := resolve root base in
  let absolutePotential := resolve root potential in
  let relativePotential := relative absoluteBase absolutePotential in
  negb (String.prefix ".." relativePotential) && negb (isAbsolute relativePotential).

Definition located : list Located :=
  (fun entry => (resolve root (snd entry), fst entry)) <$> projects.

Definition candidates : list Located :=
  deepest_first (filter (fun tuple => isInside (fst tuple) path = true) located).

Definition getProjectsByPath : list string :=
  if (length projects =? 1)%nat then fst <$> projects
  else
    match candidates with
    | [] => []
    | [only] => [snd only]
    | first :: _ => snd <$> filter (fun v => fst v = fst first) candidates
    end.

Lemma candidate_contains (t : Located) :
  t ∈ candidates <->
  (exists n r, (n, r) ∈ projects /\ t = (resolve root r, n)) /\
  isInside (fst t) path = true.
Proof.
  unfold candidates, located.
  rewrite elem_of_deepest_first, list_elem_of_filter, list_elem_of_fmap.
  split.
  - intros [Hin ([n r] & -> & Hp)]. split; [eauto | done].
  - intros [(n & r & Hp & ->) Hin]. split; [done |]. by exists (n, r).
Qed.

Lemma candidates_NoDup : NoDup (fst <$> projects) -> NoDup candidates.
Proof.
  intros Hnames. unfold candidates. rewrite deepest_first_perm.
  apply NoDup_filter. apply (NoDup_fmap_1 snd).
  assert (Heq : forall l : list (string * string),
            snd <$> ((fun entry => (resolve root (snd entry), fst entry)) <$> l)
            = fst <$> l).
  { induction l as [| entry rest IH]; [done |].
    rewrite !fmap_cons. by f_equal. }
  unfold located. by rewrite Heq.
Qed.

(** In a workspace with one project, every directory belongs to it, also
    one outside of the project's root. *)
Lemma single_project_always_found (n r : string) :
  projects = [(n, r)] -> getProjectsByPath = [n].
Proof. intros Hp. unfold getProjectsByPath. by rewrite Hp. Qed.

(** X6: in a workspace with no or several projects, the lookup answers with
    projects whose resolved root contains the directory, all with the
    same resolved root, and no project that contains the directory has a
    longer resolved root. *)
Theorem found_projects_are_deepest (n : string) :
  length projects <> 1 -> n ∈ getProjectsByPath ->
  exists r,
    (n, r) ∈ projects /\
    isInside (resolve root r) path = true /\
    (forall n' r', (n', r') ∈ projects ->
       isInside (resolve root r') path = true ->
       String.length (resolve root r') <= String.length (resolve root r)) /\
    (forall n', n' ∈ getProjectsByPath ->
       exists r', (n', r') ∈ projects /\ resolve root r' = resolve root r).
Proof.
  intros Hlen Hn. unfold getProjectsByPath in *.
  apply Nat.eqb_neq in Hlen. rewrite Hlen in *.
  destruct candidates as [| first rest] eqn:Hc; [by apply not_elem_of_nil in Hn |].
  assert (Hsame : forall m, m ∈ (match rest with
                                 | [] => [snd first]
                                 | _ => snd <$> filter (fun v => fst v = fst first)
                                                       (first :: rest)
                                 end) ->
                  exists t, t ∈ candidates /\ snd t = m /\ fst t = fst first).
  { intros m Hm. rewrite Hc. destruct rest as [| second rest].
    - apply list_elem_of_singleton in Hm as ->. exists first. split; [left | done].
    - apply list_elem_of_fmap in Hm as (t & -> & Ht).
      apply list_elem_of_filter in Ht as [Hfst Ht]. eauto. }
  destruct (Hsame n Hn) as (t & Ht & <- & Hfst).
  pose proof Ht as Hcand. apply candidate_contains in Hcand
    as [(n0 & r & Hp & ->) Hin]. simpl in *.
  exists r. split; [done |]. split; [done |]. split.
  - intros n' r' Hp' Hin'.
    assert (Hc' : (resolve root r', n') ∈ candidates).
    { apply candidate_contains. split; [eauto | done]. }
    pose proof (deepest_first_head _ first rest Hc (resolve root r', n') Hc') as Hd.
    unfold depth in Hd. simpl in Hd. by rewrite Hfst.
  - intros n' Hn'. destruct (Hsame n' Hn') as (t' & Ht' & <- & Hfst').
    apply candidate_contains in Ht' as [(n1 & r1 & Hp1 & ->) _]. simpl in *.
    exists r1. split; [done | congruence].
Qed.

(** X7: in a workspace with no or several projects, the lookup answers with
    no project exactly when no project's resolved root contains the
    directory. *)
Theorem no_project_found_iff_none_contains :
  length projects <> 1 ->
  (getProjectsByPath = [] <->
   forall n r, (n, r) ∈ projects -> isInside (resolve root r) path = false).
Proof.
  intros Hlen. unfold getProjectsByPath.
  apply Nat.eqb_neq in Hlen. rewrite Hlen.
  split.
  - intros Hnone n r Hp. destruct (isInside (resolve root r) path) eqn:Hin; [| done].
    assert (Hc : (resolve root r, n) ∈ candidates).
    { apply candidate_contains. split; [eauto | done]. }
    destruct candidates as [| first [| second rest]] eqn:Hcand.
    + by apply not_elem_of_nil in Hc.
    + discriminate.
    + apply (f_equal length) in Hnone. rewrite length_fmap in Hnone.
      assert (Hfirst : first ∈ filter (fun v => fst v = fst first)
                                      (first :: second :: rest)).
      { apply list_elem_of_filter. split; [done | left]. }
      destruct (filter _ _); [by apply not_elem_of_nil in Hfirst | discriminate].
  - intros Hnone. destruct candidates as [| first rest] eqn:Hcand; [done |].
    assert (Hc : first ∈ candidates) by (rewrite Hcand; left).
    apply candidate_contains in Hc as [(n & r & Hp & ->) Hin]. simpl in Hin.
    rewrite (Hnone n r Hp) in Hin. discriminate.
Qed.

End Paths.

(** *** A workspace of three projects *)

(** Stand-ins for Node's path functions on paths that are already
    normalised, enough to run the lookup on an example. *)
Definition join_root (root p : string) : string :=
  if String.prefix "/" p then p
  else if String.eqb p "" then root
  else root ++ "/" ++ p.

Definition below (base p : string) : string :=
  if String.eqb p base then ""
  else if String.prefix (base ++ "/") p
       then String.substring (String.length base + 1) (String.length p) p
       else "../" ++ p.

Definition three_projects : list (string * string) :=
  [("site", ""); ("app", "projects/app"); ("lib", "projects/lib")].

Definition lookup_in_three (path : string) : list string :=
  getProjectsByPath join_root below (String.prefix "/") three_projects path "/work".

Example lookup_nested : lookup_in_three "/work/projects/app/src" = ["app"].
Proof. reflexivity. Qed.

Example lookup_top : lookup_in_three "/work/docs" = ["site"].
Proof. reflexivity. Qed.

Example lookup_outside : lookup_in_three "/elsewhere" = [].
Proof. reflexivity. Qed.

Lemma found_projects_are_deepest_witness :
  exists r, ("app", r) ∈ three_projects /\
    isInside join_root below (String.prefix "/") "/work"
             (join_root "/work" r) "/work/projects/app/src" = true.
Proof.
  assert (Hlen : length three_projects <> 1) by (simpl; lia).
  assert (Hin : "app" ∈ lookup_in_three "/work/projects/app/src")
    by (rewrite lookup_nested; left).
  destruct (found_projects_are_deepest join_root below (String.prefix "/")
              three_projects "/work/projects/app/src" "/work" "app" Hlen Hin)
    as (r & Hp & Hinside & _).
  exists r. by split.
Defined.

Lemma no_project_found_iff_none_contains_witness :
  forallb (fun entry =>
             negb (isInside join_root below (String.prefix "/") "/work"
                            (join_root "/work" (snd entry)) "/elsewhere"))
          three_projects = true.
Proof.
  assert (Hlen : length three_projects <> 1) by (simpl; lia).
  destruct (no_project_found_iff_none_contains join_root below (String.prefix "/")
              three_projects "/elsewhere" "/work" Hlen) as [Hnone _].
  pose proof (Hnone lookup_outside) as H.
  rewrite forallb_forall. intros [n r] Hp. cbn [snd]. rewrite (H n r); [done |].
  by apply list_elem_of_In.
Defined.

End ProjectLookup.

(** ** The ng-new schematic as a whole *)

Module NgNewFactory.

Import NgNew.

Local Open Scope list_scope.

Record NgNewOptions := {
  name : option string;
  directory : option string;
  version : option string;
  newProjectRoot : option string;
  minimal : option bool;
  strict : option bool;
  packageManager : option string;
  inlineStyle : option bool;
  inlineTemplate : option bool;
  prefix : option string;
  viewEncapsulation : option string;
  routing : option bool;
  style : option string;
  skipTests : option bool;
  legacyBrowsers : option bool;
  createApplication : bool;
  skipInstall : bool;
  linkCli : bool;
  skipGit : bool;
  commit : CommitOption;
}.

Record WorkspaceOptions := {
  ws_name : string;
  ws_version : option string;
  ws_newProjectRoot : option string;
  ws_minimal : option bool;
  ws_strict : option bool;
  ws_packageManager : option string;
}.

Record ApplicationOptions := {
  app_projectRoot : string;
  app_name : string;
  app_inlineStyle : option bool;
  app_inlineTemplate : option bool;
  app_prefix : option string;
  app_viewEncapsulation : option string;
  app_routing : option bool;
  app_style : option string;
  app_skipTests : option bool;
  app_skipPackageJson : bool;
  app_skipInstall : bool;
  app_strict : option bool;
  app_minimal : option bool;
  app_legacyBrowsers : option bool;
}.

(** The operators applied to the empty source, in order. *)
Inductive Operator :=
| SchematicWorkspace (options : WorkspaceOptions)
| SchematicApplication (options : ApplicationOptions)
| Noop
| Move (root : string).

(** The chain the schematic returns: the template operators and the rule
    that registers the tasks. *)
Record NgNewRule := {
  operators : list Operator;
  tasks : SchematicContext -> SchematicContext;
}.

Definition name_required : JsError :=
  mkError SchematicsException None
          ("Invalid options, " ++ quoted "name" ++ " is required.")%string "".

(** [!s] for an optional string. *)
Definition non_empty (s : option string) : option string :=
  match s with
  | Some v => if String.eqb v "" then None else Some v
  | None => None
  end.

Section Factory.

(** [validateProjectName] of the utility directory: it returns or throws. *)
Variable validateProjectName : string -> Outcome unit.

Definition ng_new (options : NgNewOptions) : Outcome NgNewRule :=
  match non_empty (name options) with
  | None => Threw name_required
  | Some projectName =>
      _ ← validateProjectName projectName;
      let dir := default projectName (non_empty (directory options)) in
      let workspaceOptions :=
        {| ws_name := projectName; ws_version := version options;
           ws_newProjectRoot := newProjectRoot options;
           ws_minimal := minimal options; ws_strict := strict options;
           ws_packageManager := packageManager options |} in
      let applicationOptions :=
        {| app_projectRoot := ""; app_name := projectName;
           app_inlineStyle := inlineStyle options;
           app_inlineTemplate := inlineTemplate options;
           app_prefix := prefix options;
           app_viewEncapsulation := viewEncapsulation options;
           app_routing := routing options; app_style := style options;
           app_skipTests := skipTests options;
           app_skipPackageJson := false; app_skipInstall := true;
           app_strict := strict options; app_minimal := minimal options;
           app_legacyBrowsers :=
             if default false (legacyBrowsers options) then Some true else None |} in
      Returned
        {| operators :=
             [ SchematicWorkspace workspaceOptions;
               if createApplication options
               then SchematicApplication applicationOptions else Noop;
               Move dir ];
           tasks := register_tasks
             {| NgNew.directory := dir;
                NgNew.packageManager := packageManager options;
                NgNew.skipInstall := skipInstall options;
                NgNew.linkCli := linkCli options;
                NgNew.skipGit := skipGit options;
                NgNew.commit := commit options |} |}
  end.

End Factory.

Definition workingDirectory (t : Task) : string :=
  match configuration t with
  | NodePackageInstallTask dir _ => dir
  | NodePackageLinkTask _ dir => dir
  | RepositoryInitializerTask dir _ => dir
  end.

Lemma tasks_in_directory (options : Options) (context : SchematicContext) :
  exists added,
    register_tasks options context = context ++ added /\
    Forall (fun t => workingDirectory t = NgNew.directory options) added.
Proof.
  unfold register_tasks, addTask.
  destruct (NgNew.skipInstall options), (NgNew.linkCli options),
    (NgNew.skipGit options); simpl; rewrite <- ?app_assoc; simpl;
    eexists; (split; [first [reflexivity | symmetry; apply app_nil_r] |]);
    repeat constructor.
Qed.

(** How many tasks of each kind one execution of the task rule appends. *)
Definition kinds (added : list Task) : nat * nat * nat :=
  (length (filter (fun t => is_install t = true) added),
   length (filter (fun t => is_link t = true) added),
   length (filter (fun t => is_repository_init t = true) added)).

(** X9: the task rule keeps the tasks already registered and appends at most
    one task of each kind: an install task unless [skipInstall], a link
    task only when [linkCli] is set and [skipInstall] is not, and a
    repository initializer unless [skipGit]; all of them work in
    [options.directory]. *)
Theorem registered_task_kinds (options : Options) (context : SchematicContext) :
  exists added,
    register_tasks options context = context ++ added /\
    kinds added =
      (if NgNew.skipInstall options then 0 else 1,
       if NgNew.skipInstall options then 0
       else if NgNew.linkCli options then 1 else 0,
       if NgNew.skipGit options then 0 else 1) /\
    Forall (fun t => workingDirectory t = NgNew.directory options) added.
Proof.
  unfold register_tasks, addTask.
  destruct (NgNew.skipInstall options), (NgNew.linkCli options),
    (NgNew.skipGit options); simpl; rewrite <- ?app_assoc; simpl;
    eexists; (split; [first [reflexivity | symmetry; apply app_nil_r] |]);
    (split; [reflexivity | repeat constructor]).
Qed.

Section Rule.

Variable validateProjectName : string -> Outcome unit.

(** X10: whenever ng-new returns its rule, the project name was given and
    accepted by [validateProjectName], the generated files are moved to
    [options.directory], or to a directory named after the project when
    none is given, and every task the rule registers works in that same
    directory. *)
Theorem ng_new_works_in_one_directory (options : NgNewOptions) (rule : NgNewRule) :
  ng_new validateProjectName options = Returned rule ->
  exists projectName dir,
    non_empty (name options) = Some projectName /\
    validateProjectName projectName = Returned () /\
    dir = default projectName (non_empty (directory options)) /\
    last (operators rule) = Some (Move dir) /\
    forall context, exists added,
      tasks rule context = context ++ added /\
      Forall (fun t => workingDirectory t = dir) added.
Proof.
  unfold ng_new. intros H.
  destruct (non_empty (name options)) as [projectName |]; [| discriminate].
  destruct (validateProjectName projectName) as [[] | e] eqn:Hv; simpl in H;
    [| discriminate].
  injection H as <-. simpl.
  exists projectName, (default projectName (non_empty (directory options))).
  repeat split; try done.
  intros context.
  destruct (tasks_in_directory
              {| NgNew.directory := default projectName (non_empty (directory options));
                 NgNew.packageManager := packageManager options;
                 NgNew.skipInstall := skipInstall options;
                 NgNew.linkCli := linkCli options;
                 NgNew.skipGit := skipGit options;
                 NgNew.commit := commit options |} context)
    as (added & Hadded & Hdir).
  exists added. by split.
Qed.

(** Without a project name ng-new throws its [SchematicsException]
    whatever [validateProjectName] would say, and an error of
    [validateProjectName] is the error of ng-new. *)
Lemma ng_new_rejects (options : NgNewOptions) :
  (non_empty (name options) = None ->
   ng_new validateProjectName options = Threw name_required) /\
  (forall projectName e,
     non_empty (name options) = Some projectName ->
     validateProjectName projectName = Threw e ->
     ng_new validateProjectName options = Threw e).
Proof.
  unfold ng_new. split.
  - by intros ->.
  - intros projectName e -> Hv. by rewrite Hv.
Qed.

End Rule.

(** *** A project named after its directory *)

Definition accept_any (projectName : string) : Outcome unit := Returned ().

Definition bare (projectName : option string) : NgNewOptions :=
  {| name := projectName; directory := None; version := None;
     newProjectRoot := None; minimal := None; strict := None;
     packageManager := None; inlineStyle := None; inlineTemplate := None;
     prefix := None; viewEncapsulation := None; routing := None; style := None;
     skipTests := None; legacyBrowsers := None; createApplication := true;
     skipInstall := false; linkCli := false; skipGit := true;
     commit := CommitUnset |}.

Example bare_tasks :
  (rule ← ng_new accept_any (bare (Some "shop")); Returned (tasks rule []))
  = Returned [mkTask (mkTaskId 0) (NodePackageInstallTask "shop" None) []].
Proof. reflexivity. Qed.

Example bare_without_name : ng_new accept_any (bare None) = Threw name_required.
Proof. reflexivity. Qed.

Lemma ng_new_works_in_one_directory_witness :
  exists rule, ng_new accept_any (bare (Some "shop")) = Returned rule /\
               last (operators rule) = Some (Move "shop").
Proof.
  destruct (ng_new accept_any (bare (Some "shop"))) as [rule | e] eqn:Hrule;
    [| discriminate Hrule].
  exists rule. split; [reflexivity |].
  destruct (ng_new_works_in_one_directory accept_any (bare (Some "shop")) rule Hrule)
    as (projectName & dir & Hname & _ & -> & Hmove & _).
  injection Hname as <-. exact Hmove.
Defined.

End NgNewFactory.

(** ** What a job lookup throws *)

Module RegistryFailures.

Import JobRegistry.

Section Failures.

Variable node : Loader.
Variable isJsonSchema : JsValue -> bool.

Lemma get_prop_throws_type_error (v : JsValue) (key : string) (e : JsError) :
  get_prop v key = Threw e -> err_class e = TypeError.
Proof. destruct v; simpl; intros H; try discriminate; by injection H as <-. Qed.

(** The handler's own [bind] is a function and the call of it threw [e]. *)
Definition own_bind_threw (handler : JsValue) (e : JsError) : Prop :=
  exists fid props,
    bind_method handler = Own (JFun fid props) /\
    invoke node (JFun fid props) handler [JUndefined] = Threw e.

Lemma bind_undefined_throws (handler : JsValue) (e : JsError) :
  bind_undefined node handler = Threw e ->
  err_class e = TypeError \/ own_bind_threw handler e.
Proof.
  intros Hb. unfold bind_undefined in Hb.
  destruct handler; cbv beta iota in Hb;
    try (simpl in Hb; injection Hb as <-; by left);
    (destruct (bind_method _) as [| []] eqn:Hm;
     try discriminate Hb; try (injection Hb as <-; by left);
     right; eexists _, _; split; [exact Hm | exact Hb]).
Qed.

Lemma describe_throws_type_error (pkg handler : JsValue) (e : JsError) :
  describe node isJsonSchema pkg handler = Threw e ->
  err_class e = TypeError \/ own_bind_threw handler e.
Proof.
  unfold describe. intros H.
  repeat match type of H with
         | (mbind _ (get_prop ?v ?k)) = _ =>
             let Hp := fresh "Hp" in
             destruct (get_prop v k) eqn:Hp; simpl in H;
             [| injection H as <-; left; by eapply get_prop_throws_type_error]
         end.
  destruct (bind_undefined node handler) as [b | e'] eqn:Hb; simpl in H.
  - left. destruct b; simpl in H; try discriminate; by injection H as <-.
  - injection H as ->. by apply bind_undefined_throws.
Qed.

(** X11: [get] throws only what [require.resolve] threw with a code other
    than [MODULE_NOT_FOUND], what [require] threw while loading the
    resolved module, a [TypeError] on a module that was loaded, or what
    the call of the selected export's own [bind] threw; and an error
    thrown while a module loads is always thrown on, also when its own
    code is [MODULE_NOT_FOUND]. *)
Theorem get_throws_only (name : string) :
  (forall e, get node isJsonSchema name = Threw e ->
     (require_resolve node (moduleName name) = Threw e /\
      is_module_not_found e = false) \/
     (exists path, require_resolve node (moduleName name) = Returned path /\
                   require node path = Threw e) \/
     (exists pkg, loaded_module node name pkg /\ err_class e = TypeError) \/
     (exists handler, selected_export node name handler /\
                      own_bind_threw handler e)) /\
  (forall path e,
     require_resolve node (moduleName name) = Returned path -> path <> "" ->
     require node path = Threw e ->
     get node isJsonSchema name = Threw e).
Proof.
  split.
  - intros e H. unfold get, _resolve in H.
    destruct (require_resolve node (moduleName name)) as [path | e0] eqn:Hres;
      simpl in H.
    + destruct (String.eqb path "") eqn:Hpath; [discriminate |].
      apply String.eqb_neq in Hpath.
      destruct (require node path) as [pkg | e1] eqn:Hreq; simpl in H.
      * right. right.
        destruct (get_prop pkg (export_key name)) as [handler | e2] eqn:Hget;
          simpl in H.
        -- destruct (truthy handler); [| discriminate].
           destruct (describe node isJsonSchema pkg handler) as [h | e3] eqn:Hd;
             simpl in H; [discriminate |].
           injection H as <-.
           destruct (describe_throws_type_error _ _ _ Hd) as [Hclass | Hown].
           ++ left. exists pkg. split; [by exists path | done].
           ++ right. exists handler. split; [| done]. by exists path, pkg.
        -- injection H as <-. left. exists pkg. split; [by exists path |].
           by eapply get_prop_throws_type_error.
      * injection H as <-. right. left. by exists path.
    + destruct (is_module_not_found e0) eqn:Hc; simpl in H; [discriminate |].
      injection H as <-. by left.
  - intros path e Hres Hne Hreq. unfold get, _resolve. rewrite Hres. simpl.
    apply String.eqb_neq in Hne. by rewrite Hne, Hreq.
Qed.

End Failures.

(** A module that resolves but fails to load for a missing dependency. *)
Definition missing_dependency : JsError := cannot_find "left-pad".

Definition broken_module : Loader := {|
  require_resolve := fun request =>
    if String.eqb request "./broken" then Returned "/work/broken.js"
    else Threw (cannot_find request);
  require := fun _ => Threw missing_dependency;
  invoke := fun _ _ _ => Returned JUndefined;
|}.

Lemma get_throws_only_witness :
  is_module_not_found missing_dependency = true /\
  get broken_module object_or_boolean "./broken#run" = Threw missing_dependency.
Proof.
  split; [reflexivity |].
  destruct (get_throws_only broken_module object_or_boolean "./broken#run")
    as [_ Hload].
  apply (Hload "/work/broken.js"); [reflexivity | discriminate | reflexivity].
Defined.

End RegistryFailures.

(** ** The rule the web-worker schematic returns *)

Module WebWorkerRule.

Import VirtualTree WebWorker.

Section Accepted.

Variable getWorkspace : Tree -> Outcome WorkspaceDefinition.
Variable buildDefaultPath : ProjectDefinition -> string.
Variable parseName : string -> string -> string * string.
Variable join : string -> string -> string.
Variable addConfig : WebWorkerOptions -> string -> option string -> Rule.
Variable updateWorkspace : WorkspaceDefinition -> Rule.
Variable addSnippet : WebWorkerOptions -> Rule.
Variable mergeWorkerFiles : WebWorkerOptions -> string -> Rule.

Local Abbreviation web_worker' :=
  (web_worker getWorkspace buildDefaultPath parseName join addConfig
              updateWorkspace addSnippet mergeWorkerFiles).
Local Abbreviation run_web_worker' :=
  (run_web_worker getWorkspace buildDefaultPath parseName join addConfig
                  updateWorkspace addSnippet mergeWorkerFiles).

(** The options name an application of the workspace and one of its
    targets. *)
Definition accepted (options : WebWorkerOptions) (workspace : WorkspaceDefinition)
    (p : ProjectDefinition) (t : TargetDefinition) : Prop :=
  exists projectName targetName,
    given (project options) = Some projectName /\
    given (target options) = Some targetName /\
    projects workspace !! projectName = Some p /\
    is_application p = true /\
    targets p !! targetName = Some t.

(** The options with the name and path that [parseName] gives. *)
Definition parsed (options : WebWorkerOptions) (p : ProjectDefinition)
    : WebWorkerOptions * string :=
  let '(parsedName, parsedPath) :=
    parseName (default (buildDefaultPath p) (path options)) (name options) in
  ({| project := project options; target := target options;
      path := Some parsedPath; name := parsedName; snippet := snippet options |},
   parsedPath).

(** The target already names a web-worker tsconfig. *)
Definition configured (t : TargetDefinition) : Prop :=
  exists o config, target_options t = Some o /\
                   given (webWorkerTsConfig o) = Some config.

(** X12: the schematic returns a rule exactly when the workspace can be read
    and the options name an application of it and one of its targets. *)
Theorem web_worker_returns_rule_iff (options : WebWorkerOptions) (host : Tree) :
  (exists rule, web_worker' options host = Returned rule) <->
  exists workspace p t,
    getWorkspace host = Returned workspace /\ accepted options workspace p t.
Proof.
  unfold web_worker. split.
  - intros [rule H].
    destruct (getWorkspace host) as [workspace | e]; simpl in H; [| discriminate].
    destruct (given (project options)) as [projectName |] eqn:Hp; [| discriminate].
    destruct (given (target options)) as [targetName |] eqn:Ht; [| discriminate].
    destruct (projects workspace !! projectName) as [p |] eqn:Hfound; [| discriminate].
    destruct (is_application p) eqn:Happ; simpl in H; [| discriminate].
    destruct (targets p !! targetName) as [t |] eqn:Htarget; [| discriminate].
    exists workspace, p, t. split; [done |]. exists projectName, targetName. done.
  - intros (workspace & p & t & Hws & projectName & targetName
            & Hp & Ht & Hfound & Happ & Htarget).
    rewrite Hws, bind_returned, Hp, Ht, Hfound, Happ, Htarget. simpl.
    destruct (parseName _ _). eauto.
Qed.

(** X13: for a target that already names a web-worker tsconfig, the schematic
    neither adds the tsconfig nor rewrites the workspace: it runs the
    snippet rule when asked to and then merges the worker files. *)
Theorem configured_target_is_not_reconfigured (options : WebWorkerOptions)
    (host : Tree) (workspace : WorkspaceDefinition) (p : ProjectDefinition)
    (t : TargetDefinition) :
  getWorkspace host = Returned workspace ->
  accepted options workspace p t ->
  configured t ->
  run_web_worker' options host =
  chain [ if snippet options then addSnippet (fst (parsed options p)) else noop;
          mergeWorkerFiles (fst (parsed options p)) (snd (parsed options p)) ]
        host.
Proof.
  intros Hws (projectName & targetName & Hp & Ht & Hfound & Happ & Htarget)
         (o & config & Ho & Hconfig).
  unfold run_web_worker, web_worker, parsed.
  rewrite Hws, bind_returned, Hp, Ht, Hfound, Happ, Htarget, Ho. simpl.
  rewrite Hconfig.
  destruct (parseName _ _) as [parsedName parsedPath]. simpl.
  reflexivity.
Qed.

End Accepted.

(** *** A target with its worker tsconfig *)

Definition configured_app : ProjectDefinition :=
  {| root := Some "";
     extensions := {[ "projectType" := JStr "application" ]};
     targets := {[ "build" :=
       {| builder := "browser";
          target_options := Some {| webWorkerTsConfig := Some "tsconfig.worker.json";
                                    tsConfig := Some "tsconfig.app.json" |} |} ]} |}.

Definition configured_workspace : WorkspaceDefinition :=
  {| projects := {[ "app" := configured_app ]} |}.

(** Rules that fail when they run. *)
Definition must_not_run : Rule :=
  fun host => (Threw (plain_error "must not run"), host).

Lemma configured_target_is_not_reconfigured_witness :
  actions (snd (run_web_worker (fun _ => Returned configured_workspace)
                  (fun _ => "src/app") (fun dir n => (n, dir))
                  (fun a b => a ++ "/" ++ b)
                  (fun _ _ _ => must_not_run) (fun _ => must_not_run)
                  (fun _ => noop) create_worker
                  (worker_options (Some "app") (Some "build")) (seeded ∅))) =
  [Create "src/app/heavy.worker.ts" "addEventListener"].
Proof.
  assert (Haccepted : accepted (worker_options (Some "app") (Some "build"))
                               configured_workspace configured_app
                               {| builder := "browser";
                                  target_options :=
                                    Some {| webWorkerTsConfig := Some "tsconfig.worker.json";
                                            tsConfig := Some "tsconfig.app.json" |} |}).
  { exists "app", "build". repeat split; done. }
  rewrite (configured_target_is_not_reconfigured
             (fun _ => Returned configured_workspace)
             (fun _ => "src/app") (fun dir n => (n, dir))
             (fun a b => a ++ "/" ++ b)
             (fun _ _ _ => must_not_run) (fun _ => must_not_run)
             (fun _ => noop) create_worker
             (worker_options (Some "app") (Some "build")) (seeded ∅)
             configured_workspace configured_app _ eq_refl Haccepted).
  - reflexivity.
  - eexists _, "tsconfig.worker.json". split; reflexivity.
Defined.

Lemma web_worker_returns_rule_iff_witness :
  exists rule,
    web_worker (fun _ => Returned one_app) (fun _ => "src/app")
               (fun dir n => (n, dir)) (fun a b => a ++ "/" ++ b)
               (fun _ _ _ => noop) (fun _ => noop) (fun _ => noop) create_worker
               (worker_options (Some "app") (Some "build")) (seeded ∅)
    = Returned rule.
Proof.
  apply (web_worker_returns_rule_iff (fun _ => Returned one_app) (fun _ => "src/app")
           (fun dir n => (n, dir)) (fun a b => a ++ "/" ++ b)
           (fun _ _ _ => noop) (fun _ => noop) (fun _ => noop) create_worker
           (worker_options (Some "app") (Some "build")) (seeded ∅)).
  exists one_app, app_project, {| builder := "browser"; target_options := None |}.
  split; [reflexivity |]. exists "app", "build". repeat split; done.
Defined.

End WebWorkerRule.

(** ** The enum and class wrapping of the build optimizer *)

Module WrapEnums.

Local Open Scope list_scope.

(** The operator tokens the transform tells apart. *)
Inductive Operator :=
| FirstAssignment
| BarBarToken
| OtherOperator (kind : nat).

Inductive BindingName :=
| BindingIdentifier (text : string)
| BindingPattern.

#[local] Unset Elimination Schemes.

(** The TypeScript nodes the transform inspects; the other kinds of
    expression and statement are told apart by their kind only. *)
Inductive Expression :=
| Identifier (text : string)
| PropertyAccessExpression (expression : Expression) (name : string)
| ElementAccessExpression (expression argumentExpression : Expression)
| CallExpression (expression : Expression) (arguments : list Expression)
| ParenthesizedExpression (expression : Expression)
| BinaryExpression (lhs : Expression) (operatorToken : Operator) (rhs : Expression)
| FunctionExpression (parameters : list BindingName) (body : list Statement)
| OtherExpression (kind : nat)
with Statement :=
| ExpressionStatement (expression : Expression)
| OtherStatement (kind : nat).

#[local] Set Elimination Schemes.

Definition is_identifier (name : string) (e : Expression) : bool :=
  match e with
  | Identifier text => String.eqb text name
  | _ => false
  end.

Definition is_identifier_node (e : Expression) : bool :=
  match e with
  | Identifier _ => true
  | _ => false
  end.

(** [statements.slice(from, to)] for indices that are not negative. *)
Definition slice {A} (from to : nat) (l : list A) : list A :=
  take (to - from) (drop from l).

(** *** findStatements *)

(** [args.some(arg => ...)] of the call case: the argument, or the object
    of a property access, is the identifier [name]. *)
Definition isReferenced (name : string) (arg : Expression) : bool :=
  let potentialIdentifier :=
    match arg with
    | PropertyAccessExpression expression _ => expression
    | _ => arg
    end in
  is_identifier name potentialIdentifier.

(** One turn of the loop: [true] where the loop counts the statement and
    continues, [false] where it breaks. *)
Definition counted (name : string) (statement : Statement) : bool :=
  match statement with
  | ExpressionStatement expression =>
      match expression with
      | CallExpression _ args =>
          (2 <? length args)%nat && existsb (isReferenced name) args
      | BinaryExpression lhs _ _ =>
          let node :=
            match lhs with
            | BinaryExpression leftLeft _ _ => leftLeft
            | _ => lhs
            end in
          let leftExpression :=
            match node with
            | PropertyAccessExpression expression _
            | ElementAccessExpression expression _ => expression
            | _ => node
            end in
          is_identifier name leftExpression
      | _ => false
      end
  | _ => false
  end.

(** The statements the loop counts before it breaks or runs out. *)
Fixpoint counted_run (name : string) (statements : list Statement) : nat :=
  match statements with
  | statement :: rest =>
      if counted name statement then S (counted_run name rest) else 0
  | [] => 0
  end.

Definition findStatements (name : string) (statements : list Statement)
    (statementIndex offset : nat) : option (list Statement) :=
  let count := 1 + counted_run name (drop (statementIndex + 1) statements) in
  if (1 <? count)%nat
  then Some (slice (statementIndex + offset) (statementIndex + count) statements)
  else None.

(** *** findEnumIife *)

Definition no_parameter : JsError :=
  mkError TypeError None "Cannot read properties of undefined (reading 'name')" "".

(** The check of one statement of the IIFE body: an assignment to an
    element of the parameter. *)
Definition assigns_member (parameterName : string) (statement : Statement) : bool :=
  match statement with
  | ExpressionStatement (BinaryExpression (ElementAccessExpression leftExpression _) _ _) =>
      is_identifier parameterName leftExpression
  | _ => false
  end.

(** The second half of the function, once the call, its function and the
    parameter name are known: the argument and the body. *)
Definition check_argument (name parameterName : string) (callExpression : Expression)
    (argument0 : Expression) (body : list Statement)
    : option (Expression * option Expression) :=
  match argument0 with
  | BinaryExpression (Identifier text) op rhs =>
      if negb (String.eqb text name) then None
      else
        let assigned :=
          match op with
          | FirstAssignment =>
              match rhs with
              | BinaryExpression _ BarBarToken _ => Some (true, rhs)
              | BinaryExpression _ _ _ => None
              | _ => Some (true, rhs)
              end
          | _ => Some (false, argument0)
          end in
        match assigned with
        | None => None
        | Some (potentialExport, argument) =>
            match argument with
            | BinaryExpression argLeft BarBarToken _ =>
                let exportExpression :=
                  match argLeft with
                  | Identifier _ => None
                  | _ => if potentialExport then Some argLeft else None
                  end in
                if forallb (assigns_member parameterName) body
                then Some (callExpression, exportExpression)
                else None
            | _ => None
            end
        end
  | _ => None
  end.

Definition findEnumIife (name : string) (statement : Statement)
    : Outcome (option (Expression * option Expression)) :=
  match statement with
  | ExpressionStatement (CallExpression callee [argument0] as callExpression) =>
      match callee with
      | ParenthesizedExpression (FunctionExpression parameters body) =>
          match parameters with
          | [] => Threw no_parameter
          | BindingIdentifier parameterName :: _ =>
              Returned (check_argument name parameterName callExpression
                                       argument0 body)
          | BindingPattern :: _ => Returned None
          end
      | _ => Returned None
      end
  | _ => Returned None
  end.

(** The structure [updateEnumIife] insists on before it rewrites the
    call: a parenthesized function expression is what is called. *)
Definition iife_structure (iife : Expression) : bool :=
  match iife with
  | CallExpression (ParenthesizedExpression (FunctionExpression _ _)) _ => true
  | _ => false
  end.

Lemma counted_run_spec (name : string) (l : list Statement) :
  Forall (fun s => counted name s = true) (take (counted_run name l) l) /\
  length (take (counted_run name l) l) = counted_run name l /\
  (forall s, l !! counted_run name l = Some s -> counted name s = false).
Proof.
  induction l as [| s l (IH1 & IH2 & IH3)]; simpl.
  - split; [constructor | split; [done |]]. intros s H. discriminate.
  - destruct (counted name s) eqn:Hs; simpl.
    + split; [by constructor | split; [by rewrite IH2 | done]].
    + split; [constructor | split; [done |]]. intros s' [= <-]. done.
Qed.

(** X14: called on a statement of the list with no offset, [findStatements]
    answers with that statement followed by the longest run of statements
    right after it that the loop counts for [name], and with [undefined]
    when that run is empty: the block is never the host statement alone,
    it is a contiguous part of the list, and the statement after it, if
    any, is not counted. *)
Theorem findStatements_block (name : string) (statements : list Statement)
    (statementIndex : nat) (host : Statement) :
  statements !! statementIndex = Some host ->
  match findStatements name statements statementIndex 0 with
  | Some block =>
      exists followers,
        block = host :: followers /\ followers <> [] /\
        Forall (fun s => counted name s = true) followers /\
        take (length block) (drop statementIndex statements) = block /\
        (forall next, statements !! (statementIndex + length block) = Some next ->
                      counted name next = false)
  | None =>
      forall next, statements !! (statementIndex + 1) = Some next ->
                   counted name next = false
  end.
Proof.
  intros Hhost. unfold findStatements, slice.
  set (rest := drop (statementIndex + 1) statements).
  destruct (counted_run_spec name rest) as (Hall & Hlen & Hnext).
  replace (statementIndex + 0) with statementIndex by lia.
  replace (statementIndex + (1 + counted_run name rest) - statementIndex)
    with (S (counted_run name rest)) by lia.
  assert (Hdrop : drop statementIndex statements = host :: rest).
  { unfold rest. replace (statementIndex + 1) with (S statementIndex) by lia.
    by apply drop_S. }
  destruct (counted_run name rest) as [| n] eqn:Hrun; simpl.
  - intros next Hn. apply Hnext. unfold rest. by rewrite lookup_drop, Nat.add_0_r.
  - rewrite Hdrop. simpl. exists (take (S n) rest).
    split; [done |]. split; [| split; [done | split]].
    + intros Hnil. rewrite Hnil in Hlen. discriminate.
    + simpl in Hlen. rewrite Hlen. simpl. done.
    + intros next Hn. apply Hnext. unfold rest. rewrite lookup_drop.
      simpl in Hlen, Hn. rewrite Hlen in Hn.
      by replace (statementIndex + 1 + S n) with (statementIndex + S (S n)) by lia.
Qed.

(** X15: when [findEnumIife] finds an IIFE, the statement is a call, with one
    argument, of a parenthesized function expression whose first
    parameter is an identifier, which is the structure [updateEnumIife]
    insists on; every statement of the function body assigns to an
    element of that parameter; the argument starts with the enum's
    name; and an export expression is answered only for an argument of
    the form [name = export || ...] whose [export] is not an identifier. *)
Theorem findEnumIife_found (name : string) (statement : Statement)
    (iife : Expression) (exportExpression : option Expression) :
  findEnumIife name statement = Returned (Some (iife, exportExpression)) ->
  statement = ExpressionStatement iife /\
  iife_structure iife = true /\
  exists parameterName parameters body op rest,
    iife = CallExpression
             (ParenthesizedExpression
                (FunctionExpression (BindingIdentifier parameterName :: parameters) body))
             [BinaryExpression (Identifier name) op rest] /\
    Forall (fun s => assigns_member parameterName s = true) body /\
    match exportExpression with
    | Some export =>
        is_identifier_node export = false /\
        op = FirstAssignment /\
        exists fallback, rest = BinaryExpression export BarBarToken fallback
    | None => True
    end.
Proof.
  intros H. unfold findEnumIife in H.
  destruct statement as [[| | | callee [| argument0 [| ? ?]] | | | |] |];
    try discriminate.
  destruct callee as [| | | | [| | | | | | parameters body |] | | |];
    try discriminate.
  destruct parameters as [| [parameterName |] parameters]; try discriminate.
  injection H as H. unfold check_argument in H.
  destruct argument0 as [| | | | | [text | | | | | | |] op rest | |];
    try discriminate.
  destruct (String.eqb_spec text name) as [-> | Hne]; simpl in H; [| discriminate].
  assert (Hbody : forall r, (if forallb (assigns_member parameterName) body
                             then Some r else None) = Some (iife, exportExpression) ->
                            r = (iife, exportExpression) /\
                            Forall (fun s => assigns_member parameterName s = true) body).
  { intros r Hr. destruct (forallb _ body) eqn:Hb; [| discriminate].
    injection Hr as ->. split; [done |].
    apply Forall_forall. intros s Hs. rewrite forallb_forall in Hb.
    apply Hb. by apply list_elem_of_In. }
  destruct op as [| | kind].
  - destruct rest as [| | | | | export [| | kind] fallback | |]; try discriminate.
    apply Hbody in H as [[= <- <-] Hall].
    split; [done |]. split; [done |].
    exists parameterName, parameters, body, FirstAssignment,
      (BinaryExpression export BarBarToken fallback).
    split; [done |]. split; [done |].
    destruct export; simpl; eauto.
  - apply Hbody in H as [[= <- <-] Hall].
    split; [done |]. split; [done |].
    exists parameterName, parameters, body, BarBarToken, rest.
    split; [done |]. split; [done |]. by destruct (Identifier name).
  - discriminate.
Qed.

(** X16: [findEnumIife] throws exactly on a call, with one argument, of a
    parenthesized function expression that has no parameter, whatever the
    enum's name. *)
Theorem findEnumIife_throws_iff (name : string) (statement : Statement) :
  (exists e, findEnumIife name statement = Threw e) <->
  exists body argument,
    statement = ExpressionStatement
                  (CallExpression
                     (ParenthesizedExpression (FunctionExpression [] body))
                     [argument]).
Proof.
  split.
  - intros [e H]. unfold findEnumIife in H.
    destruct statement as [[| | | callee [| argument0 [| ? ?]] | | | |] |];
      try discriminate.
    destruct callee as [| | | | [| | | | | | parameters body |] | | |];
      try discriminate.
    destruct parameters as [| [parameterName |] parameters]; try discriminate.
    eauto.
  - intros (body & argument & ->). simpl. eauto.
Qed.

(** *** An enum as TypeScript 2.3 emits it *)

Definition member (parameter : string) : Statement :=
  ExpressionStatement
    (BinaryExpression
       (ElementAccessExpression (Identifier parameter) (OtherExpression 0))
       FirstAssignment (OtherExpression 1)).

Definition colour_iife : Expression :=
  CallExpression
    (ParenthesizedExpression
       (FunctionExpression [BindingIdentifier "Colour"]
                           [member "Colour"; member "Colour"]))
    [BinaryExpression (Identifier "Colour") BarBarToken
       (ParenthesizedExpression
          (BinaryExpression (Identifier "Colour") FirstAssignment (OtherExpression 2)))].

Example colour_found :
  findEnumIife "Colour" (ExpressionStatement colour_iife)
  = Returned (Some (colour_iife, None)).
Proof. reflexivity. Qed.

Lemma findEnumIife_found_witness : iife_structure colour_iife = true.
Proof.
  destruct (findEnumIife_found "Colour" (ExpressionStatement colour_iife)
              colour_iife None eq_refl) as (_ & Hstructure & _).
  exact Hstructure.
Defined.

(** A decorated class and what follows it. *)
Definition decorated : list Statement :=
  [ OtherStatement 0;
    ExpressionStatement
      (BinaryExpression (PropertyAccessExpression (Identifier "Foo") "bar")
                        FirstAssignment (OtherExpression 1));
    ExpressionStatement
      (CallExpression (Identifier "__decorate")
                      [OtherExpression 2; Identifier "Foo"; OtherExpression 3]);
    ExpressionStatement
      (CallExpression (Identifier "use") [Identifier "Foo"]) ].

Example decorated_block :
  findStatements "Foo" decorated 0 0 = Some (take 3 decorated).
Proof. reflexivity. Qed.

Example decorated_alone : findStatements "Bar" decorated 0 0 = None.
Proof. reflexivity. Qed.

Lemma findStatements_block_witness :
  forallb (counted "Foo") (drop 1 (take 3 decorated)) = true /\
  counted "Foo" (ExpressionStatement
                   (CallExpression (Identifier "use") [Identifier "Foo"])) = false.
Proof.
  pose proof (findStatements_block "Foo" decorated 0 (OtherStatement 0) eq_refl) as H.
  rewrite decorated_block in H.
  destruct H as (followers & Hblock & _ & Hall & _ & Hnext).
  split; [reflexivity |].
  exact (Hnext _ eq_refl).
Defined.

End WrapEnums.

(** ** The project a command runs in *)

Module ProjectName.

Import SchematicCommand ProjectLookup.

Local Open Scope list_scope.

(** What the lookup reads of a workspace: its projects in the order of
    the [Map] (name and root), its base path and
    [extensions['defaultProject']]. *)
Record Workspace := {
  projects : list (string * string);
  basePath : string;
  defaultProject : JsValue;
}.

Section Lookup.

Variable fmt : Formatting.
Variable resolve : string -> string -> string.
Variable relative : string -> string -> string.
Variable isAbsolute : string -> bool.

Definition identical_roots : string :=
  oneLine fmt (newline ++ "              Two or more projects are using identical roots."
               ++ newline ++ "              Unable to determine project using current working directory."
               ++ newline ++ "              Using default workspace project instead."
               ++ newline ++ "            ")%string.

(** [getProjectName] of [createWorkflow]: the project name, if any, and
    the entries written to the logger; [cwd] is [process.cwd()]. *)
Definition getProjectName (workspace : option Workspace) (cwd : string)
    : option string * list LogEntry :=
  match workspace with
  | Some w =>
      let projectNames :=
        getProjectsByPath resolve relative isAbsolute (projects w) cwd (basePath w) in
      match projectNames with
      | [projectName] => (Some projectName, [])
      | _ =>
          let warned :=
            if (1 <? length projectNames)%nat
            then [mkEntry Warn identical_roots] else [] in
          match defaultProject w with
          | JStr defaultProjectName =>
              if String.eqb defaultProjectName "" then (None, warned)
              else (Some defaultProjectName, warned)
          | _ => (None, warned)
          end
      end
  | None => (None, [])
  end.

(** X8: the warning about identical roots is logged only when two projects
    of different names have the same resolved root and that root
    contains the working directory. *)
Theorem warning_means_identical_roots (w : Workspace) (cwd : string) :
  NoDup (fst <$> projects w) ->
  snd (getProjectName (Some w) cwd) <> [] ->
  exists n1 r1 n2 r2,
    n1 <> n2 /\ (n1, r1) ∈ projects w /\ (n2, r2) ∈ projects w /\
    resolve (basePath w) r1 = resolve (basePath w) r2 /\
    isInside resolve relative isAbsolute (basePath w)
             (resolve (basePath w) r1) cwd = true.
Proof.
  intros Hnames Hwarned. unfold getProjectName in Hwarned.
  set (names := getProjectsByPath resolve relative isAbsolute (projects w) cwd
                                  (basePath w)) in *.
  assert (Hmany : 1 < length names).
  { destruct names as [| n1 [| n2 rest]]; simpl in *; try lia; try done.
    destruct (defaultProject w) as [| | | | | d | | |]; try done.
    by destruct (String.eqb d ""). }
  clear Hwarned. unfold names, getProjectsByPath in Hmany.
  destruct (length (projects w) =? 1)%nat eqn:Hone.
  { apply Nat.eqb_eq in Hone. rewrite length_fmap in Hmany. lia. }
  pose proof (candidates_NoDup resolve relative isAbsolute (projects w) cwd
                (basePath w) Hnames) as Hnodup.
  pose proof (candidate_contains resolve relative isAbsolute (projects w) cwd
                (basePath w)) as Hcand.
  destruct (candidates resolve relative isAbsolute (projects w) cwd (basePath w))
    as [| first [| second rest]] eqn:Hc; simpl in Hmany; try lia.
  rewrite length_fmap in Hmany.
  set (kept := filter (fun v => fst v = fst first) (first :: second :: rest)) in *.
  assert (Hnd : NoDup kept) by (by apply NoDup_filter).
  assert (Hsub : forall t, t ∈ kept ->
                           fst t = fst first /\ t ∈ first :: second :: rest).
  { intros t Ht. by apply list_elem_of_filter in Ht. }
  clearbody kept.
  destruct kept as [| t1 [| t2 others]]; simpl in Hmany; try lia.
  destruct (Hsub t1) as [Hf1 Hin1]; [left |].
  destruct (Hsub t2) as [Hf2 Hin2]; [right; left |].
  apply Hcand in Hin1 as [(n1 & r1 & Hp1 & ->) Hinside1].
  apply Hcand in Hin2 as [(n2 & r2 & Hp2 & ->) _].
  simpl in *. exists n1, r1, n2, r2.
  split; [| repeat split; try done; congruence].
  intros ->. apply NoDup_cons in Hnd as [Hnot _]. apply Hnot.
  rewrite Hf1, <- Hf2. left.
Qed.

End Lookup.

(** *** Two projects in one directory *)

Definition twins : Workspace :=
  {| projects := [("app", "projects/app"); ("app-e2e", "projects/app")];
     basePath := "/work"; defaultProject := JStr "app" |}.

Example twins_warned :
  getProjectName uncoloured join_root below (String.prefix "/") (Some twins)
                 "/work/projects/app/src" =
  (Some "app", [mkEntry Warn (identical_roots uncoloured)]).
Proof. reflexivity. Qed.

Lemma warning_means_identical_roots_witness :
  exists n1 r1 n2 r2,
    n1 <> n2 /\ (n1, r1) ∈ projects twins /\ (n2, r2) ∈ projects twins /\
    join_root "/work" r1 = join_root "/work" r2.
Proof.
  assert (Hnames : NoDup (fst <$> projects twins)).
  { apply NoDup_cons. split; [| apply NoDup_singleton].
    intros H%list_elem_of_singleton. discriminate. }
  assert (Hwarned : snd (getProjectName uncoloured join_root below (String.prefix "/")
                           (Some twins) "/work/projects/app/src") <> [])
    by (rewrite twins_warned; discriminate).
  destruct (warning_means_identical_roots uncoloured join_root below
              (String.prefix "/") twins "/work/projects/app/src" Hnames Hwarned)
    as (n1 & r1 & n2 & r2 & Hne & Hp1 & Hp2 & Hroot & _).
  exists n1, r1, n2, r2. done.
Defined.

End ProjectName.

(** ** The schematics listed by the help *)

Module HelpListing.

Local Open Scope list_scope.

Section Listing.

(** [this.collectionName] *)
Variable collectionName : string.

(** [name.split(/:/, 2)], with the command's own collection for a name
    that has no schematic part. *)
Definition parts (name : string) : string * string :=
  match split_limit ":" 2 name with
  | first :: second :: _ =>
      if String.eqb second "" then (collectionName, first) else (first, second)
  | [first] => (collectionName, first)
  | [] => (collectionName, "")
  end.

(** The keys a plain object answers from [Object.prototype]: a read of
    one of them on [{}] gives a function, or the prototype itself for
    ['__proto__'], never [undefined]. *)
Definition object_prototype_keys : list string :=
  [ "constructor"; "__defineGetter__"; "__defineSetter__"; "hasOwnProperty";
    "__lookupGetter__"; "__lookupSetter__"; "isPrototypeOf";
    "propertyIsEnumerable"; "toString"; "valueOf"; "__proto__";
    "toLocaleString" ].

Definition inherited (key : string) : bool :=
  bool_decide (key ∈ object_prototype_keys).

Definition push_not_a_function : JsError :=
  mkError TypeError None "namesPerCollection[collectionName].push is not a function" "".

(** One turn of [schematicNames.forEach].  For a collection that is an own
    key the list is there and takes the name; for any other collection
    the read [namesPerCollection[collectionName]] gives [undefined], a
    list is created and takes the name, unless the collection is a key
    the object inherits: the read is then truthy, no list is created and
    the call of [push], which that value does not have, throws.  Own keys
    are never inherited ones, as none is ever created. *)
Definition push_name (namesPerCollection : gmap string (list string))
    (name : string) : Outcome (gmap string (list string)) :=
  let '(collection, schematicName) := parts name in
  match namesPerCollection !! collection with
  | Some names => Returned (<[collection := names ++ [schematicName]]> namesPerCollection)
  | None =>
      if inherited collection then Threw push_not_a_function
      else Returned (<[collection := [schematicName]]> namesPerCollection)
  end.

(** [schematicNames.forEach(name => ...)] from the object [acc]: an
    exception leaves the loop. *)
Fixpoint forEach (acc : gmap string (list string)) (schematicNames : list string)
    : Outcome (gmap string (list string)) :=
  match schematicNames with
  | [] => Returned acc
  | name :: rest => acc ← push_name acc name; forEach acc rest
  end.

Definition namesPerCollection (schematicNames : list string)
    : Outcome (gmap string (list string)) :=
  forEach ∅ schematicNames.

(** The schematic parts of the names of one collection, in order. *)
Definition listed (collection : string) (schematicNames : list string) : list string :=
  snd <$> filter (fun p => fst p = collection) (parts <$> schematicNames).

(** No own key of the object is a key it inherits. *)
Definition own_keys_fresh (acc : gmap string (list string)) : Prop :=
  forall key, inherited key = true -> acc !! key = None.

Lemma push_name_fresh (acc acc' : gmap string (list string)) (name : string) :
  own_keys_fresh acc -> push_name acc name = Returned acc' -> own_keys_fresh acc'.
Proof.
  intros Hfresh Hpush key Hkey. unfold push_name in Hpush.
  destruct (parts name) as [c s].
  destruct (acc !! c) as [names |] eqn:Hc.
  - injection Hpush as <-. destruct (decide (c = key)) as [-> | Hne].
    + by rewrite (Hfresh key Hkey) in Hc.
    + rewrite lookup_insert_ne by done. by apply Hfresh.
  - destruct (inherited c) eqn:Hin; [done |]. injection Hpush as <-.
    destruct (decide (c = key)) as [-> | Hne]; [congruence |].
    rewrite lookup_insert_ne by done. by apply Hfresh.
Qed.

Lemma forEach_lookup (schematicNames : list string)
    (acc : gmap string (list string)) :
  Forall (fun name => inherited (fst (parts name)) = false) schematicNames ->
  exists m, forEach acc schematicNames = Returned m /\
    forall collection,
      m !! collection =
      match listed collection schematicNames with
      | [] => acc !! collection
      | added => Some (default [] (acc !! collection) ++ added)
      end.
Proof.
  revert acc. induction schematicNames as [| name rest IH]; intros acc Hok.
  - exists acc. by split.
  - apply Forall_cons in Hok as [Hname Hrest]. cbn [forEach].
    destruct (parts name) as [c s] eqn:Hparts. simpl in Hname.
    assert (Hpush : push_name acc name =
                    Returned (<[c := default [] (acc !! c) ++ [s]]> acc)).
    { unfold push_name. rewrite Hparts, Hname. by destruct (acc !! c). }
    rewrite Hpush, bind_returned.
    destruct (IH (<[c := default [] (acc !! c) ++ [s]]> acc) Hrest) as (m & Hm & Hlookup).
    exists m. split; [done |]. intros collection. rewrite Hlookup.
    unfold listed. rewrite fmap_cons, Hparts.
    destruct (decide (c = collection)) as [-> | Hne].
    + rewrite filter_cons_True by done. rewrite fmap_cons, lookup_insert_eq. simpl.
      destruct (snd <$> filter _ (parts <$> rest)); simpl; [done |].
      by rewrite <- app_assoc.
    + rewrite filter_cons_False by done. by rewrite lookup_insert_ne.
Qed.

Lemma forEach_throws (schematicNames : list string)
    (acc : gmap string (list string)) :
  own_keys_fresh acc ->
  Exists (fun name => inherited (fst (parts name)) = true) schematicNames ->
  forEach acc schematicNames = Threw push_not_a_function.
Proof.
  revert acc. induction schematicNames as [| name rest IH]; intros acc Hfresh Hbad.
  - by apply Exists_nil in Hbad.
  - cbn [forEach]. destruct (push_name acc name) as [acc' | e] eqn:Hpush.
    + rewrite bind_returned. apply IH; [by eapply push_name_fresh |].
      apply Exists_cons in Hbad as [Hname | Hrest]; [| done].
      unfold push_name in Hpush. destruct (parts name) as [c s]. simpl in Hname.
      by rewrite (Hfresh c Hname), Hname in Hpush.
    + unfold push_name in Hpush. destruct (parts name) as [c s].
      destruct (acc !! c); [done |]. destruct (inherited c); [| done].
      by injection Hpush as <-.
Qed.

(** X17: when no name's collection is a key that every object inherits
    (such as [constructor], [toString] or [__proto__]), the help lists
    every schematic name once, under its collection and in the order of
    the names: a collection is a key exactly when some name belongs to
    it, and its list holds the schematic parts of those names.  When some
    name's collection is such a key, the listing throws a [TypeError]. *)
Theorem names_grouped_by_collection (schematicNames : list string) :
  (Forall (fun name => inherited (fst (parts name)) = false) schematicNames ->
   exists m, namesPerCollection schematicNames = Returned m /\
     forall collection,
       m !! collection =
       match listed collection schematicNames with
       | [] => None
       | names => Some names
       end) /\
  (Exists (fun name => inherited (fst (parts name)) = true) schematicNames ->
   namesPerCollection schematicNames = Threw push_not_a_function /\
   err_class push_not_a_function = TypeError).
Proof.
  split.
  - intros Hok. destruct (forEach_lookup schematicNames ∅ Hok) as (m & Hm & Hlookup).
    exists m. split; [done |]. intros collection.
    rewrite Hlookup, lookup_empty. simpl.
    by destruct (listed collection schematicNames).
  - intros Hbad. split; [| done]. apply forEach_throws; [| done].
    intros key _. apply lookup_empty.
Qed.

End Listing.

Example generate_help :
  namesPerCollection "@schematics/angular"
                     ["component"; "@ngrx/schematics:store"; "pipe"; "other:"]
  = Returned {[ "@schematics/angular" := ["component"; "pipe"; "other"];
                "@ngrx/schematics" := ["store"] ]}.
Proof. reflexivity. Qed.

Example inherited_collection :
  namesPerCollection "mine" ["component"; "constructor:x"; "pipe"]
  = Threw push_not_a_function.
Proof. reflexivity. Qed.

End HelpListing.

(** ** The options a schematic adds to its command *)

Module CommandOptions.

Import RunSchematic.

Local Open Scope list_scope.

(** [o.userAnalytics && !isPackageNameSafeForAnalytics(collectionName)] *)
Definition drops_analytics (safe : bool) (o : Option) : bool :=
  match userAnalytics o with
  | Some (S _) => negb safe
  | _ => false
  end.

Definition without_analytics (safe : bool) (o : Option) : Option :=
  if drops_analytics safe o
  then {| name := name o; format := format o; hidden := hidden o;
          userAnalytics := None |}
  else o.

(** The options of the command after [initialize]: [described] are the
    command's own, [parsed] the ones read from the schematic's schema,
    [safe] what [isPackageNameSafeForAnalytics] says of the collection. *)
Definition initialize (described parsed : list Option) (safe : bool) : list Option :=
  without_analytics safe <$>
    (described ++ filter (fun x => default false (hidden x) = false) parsed).

(** X18: after [initialize] the command has its own options followed by the
    schematic's options that are not hidden, under the same names and in
    the same order; for a collection that is not safe for analytics no
    option keeps a user-analytics dimension other than 0, and for a safe
    collection the options are left as they are. *)
Theorem initialize_strips_analytics (described parsed : list Option) (safe : bool) :
  name <$> initialize described parsed safe =
    (name <$> described) ++
    (name <$> filter (fun x => default false (hidden x) = false) parsed) /\
  (safe = false ->
   Forall (fun o => userAnalytics o = None \/ userAnalytics o = Some 0)
          (initialize described parsed safe)) /\
  (safe = true ->
   initialize described parsed safe =
   described ++ filter (fun x => default false (hidden x) = false) parsed).
Proof.
  unfold initialize.
  set (all := described ++ filter _ parsed). split; [| split].
  - rewrite <- fmap_app. fold all. rewrite <- list_fmap_compose.
    apply list_fmap_ext. intros i o _. simpl. unfold without_analytics.
    by destruct (drops_analytics safe o).
  - intros ->. apply Forall_fmap, Forall_forall. intros o _. simpl.
    unfold without_analytics, drops_analytics.
    destruct (userAnalytics o) as [[| dimension] |] eqn:Hu; simpl; auto.
  - intros ->. rewrite <- (list_fmap_id all) at 2.
    apply list_fmap_ext. intros i o _. unfold without_analytics, drops_analytics.
    by destruct (userAnalytics o) as [[| dimension] |].
Qed.

Example hidden_and_tracked :
  initialize []
    [ {| name := "style"; format := None; hidden := None; userAnalytics := Some 5 |};
      {| name := "legacy"; format := None; hidden := Some true;
         userAnalytics := None |} ]
    false =
  [ {| name := "style"; format := None; hidden := None; userAnalytics := None |} ].
Proof. reflexivity. Qed.

End CommandOptions.
